(** * sasm: named semaphores and shared memory segments

    A shallow embedding of [sasm.h] (namespace [sasm]): the two classes
    [Semaphore] and [Shared_Memory], on both backends the header selects
    with [#ifdef _WIN32].  Every operating-system call goes through a
    small state monad that records the call and its result in a trace and
    takes the result from an arbitrary oracle, so a statement quantified
    over the oracle holds for every outcome the operating system can
    produce. *)

From Stdlib Require Import ZArith NArith List String Bool Lia.
Import ListNotations.

Local Open Scope string_scope.
Local Open Scope Z_scope.
Local Open Scope list_scope.

(** ** Machine integers and pointers *)

(** Value of an unsigned [w]-bit integer holding [x]. *)
Definition wrap_unsigned (w x : Z) : Z := x mod 2 ^ w.

(** Value of a signed two's complement [w]-bit integer holding [x]. *)
Definition wrap_signed (w x : Z) : Z :=
  (x + 2 ^ (w - 1)) mod 2 ^ w - 2 ^ (w - 1).

(** Pointers and handles are their numeric value; [nullptr] is zero. *)
Definition nullptr : Z := 0.

(** [#define INFINITE ((unsigned int)-1)] *)
Definition INFINITE : Z := wrap_unsigned 32 (-1).

(** [struct timespec] *)
Record timespec : Type := mk_timespec { tv_sec : Z; tv_nsec : Z }.

(** ** The platform

    [backend] is the branch of [#ifdef _WIN32] that is compiled.  The
    other fields are the constants and integer widths the header takes
    from the system headers; they are not part of the repository. *)

Inductive Backend : Type := Win32 | Posix.

Record Platform : Type := mk_platform {
  backend : Backend;
  (* <semaphore.h>, <sys/mman.h>, <fcntl.h>, <time.h> *)
  SEM_FAILED : Z;
  MAP_FAILED : Z;
  O_CREAT : Z;
  O_RDWR : Z;
  PROT_READ : Z;
  PROT_WRITE : Z;
  MAP_SHARED : Z;
  CLOCK_REALTIME : Z;
  time_t_bits : Z;
  long_bits : Z;
  (* <windows.h> *)
  LONG_MAX : Z;
  INVALID_HANDLE_VALUE : Z;
  PAGE_READWRITE : Z;
  FILE_MAP_ALL_ACCESS : Z;
  WAIT_OBJECT_0 : Z
}.

(** Linux on x86-64 with glibc. *)
Definition linux : Platform := {|
  backend := Posix;
  SEM_FAILED := 0;
  MAP_FAILED := -1;
  O_CREAT := 64;
  O_RDWR := 2;
  PROT_READ := 1;
  PROT_WRITE := 2;
  MAP_SHARED := 1;
  CLOCK_REALTIME := 0;
  time_t_bits := 64;
  long_bits := 64;
  LONG_MAX := 9223372036854775807;
  INVALID_HANDLE_VALUE := -1;
  PAGE_READWRITE := 4;
  FILE_MAP_ALL_ACCESS := 983071;
  WAIT_OBJECT_0 := 0
|}.

(** Linux on a 32-bit target whose [time_t] and [long] are 32 bits wide. *)
Definition linux32 : Platform := {|
  backend := Posix;
  SEM_FAILED := 0;
  MAP_FAILED := -1;
  O_CREAT := 64;
  O_RDWR := 2;
  PROT_READ := 1;
  PROT_WRITE := 2;
  MAP_SHARED := 1;
  CLOCK_REALTIME := 0;
  time_t_bits := 32;
  long_bits := 32;
  LONG_MAX := 2147483647;
  INVALID_HANDLE_VALUE := -1;
  PAGE_READWRITE := 4;
  FILE_MAP_ALL_ACCESS := 983071;
  WAIT_OBJECT_0 := 0
|}.

(** 64-bit Windows. *)
Definition windows : Platform := {|
  backend := Win32;
  SEM_FAILED := 0;
  MAP_FAILED := -1;
  O_CREAT := 64;
  O_RDWR := 2;
  PROT_READ := 1;
  PROT_WRITE := 2;
  MAP_SHARED := 1;
  CLOCK_REALTIME := 0;
  time_t_bits := 64;
  long_bits := 32;
  LONG_MAX := 2147483647;
  INVALID_HANDLE_VALUE := -1;
  PAGE_READWRITE := 4;
  FILE_MAP_ALL_ACCESS := 983071;
  WAIT_OBJECT_0 := 0
|}.

(** macOS on a 64-bit target, where [SEM_FAILED] is the pointer [-1]. *)
Definition darwin : Platform := {|
  backend := Posix;
  SEM_FAILED := -1;
  MAP_FAILED := -1;
  O_CREAT := 512;
  O_RDWR := 2;
  PROT_READ := 1;
  PROT_WRITE := 2;
  MAP_SHARED := 1;
  CLOCK_REALTIME := 0;
  time_t_bits := 64;
  long_bits := 64;
  LONG_MAX := 9223372036854775807;
  INVALID_HANDLE_VALUE := -1;
  PAGE_READWRITE := 4;
  FILE_MAP_ALL_ACCESS := 983071;
  WAIT_OBJECT_0 := 0
|}.

(** ** Operating-system calls *)

Module OS.

(** The calls the header makes, with their arguments. *)
Inductive os_call : Type :=
  (* descriptor-style backend *)
  | sem_open (name : string) (oflag mode value : Z)
  | sem_post (sem : Z)
  | sem_wait (sem : Z)
  | sem_timedwait (sem : Z) (abs_timeout : timespec)
  | sem_close (sem : Z)
  | sem_unlink (name : string)
  | clock_gettime (clk : Z) (out : timespec)
  | shm_open (name : string) (oflag mode : Z)
  | ftruncate (fd : Z) (length : N)
  | close (fd : Z)
  | shm_unlink (name : string)
  | mmap (addr : Z) (length : N) (prot flags fd offset : Z)
  | munmap (addr : Z) (length : N)
  (* handle-style backend *)
  | CreateSemaphoreA (attributes initial maximum : Z) (name : string)
  | ReleaseSemaphore (h count previous : Z)
  | WaitForSingleObject (h milliseconds : Z)
  | CloseHandle (h : Z)
  | CreateFileMappingA (file attributes protect size_high size_low : Z)
      (name : string)
  | MapViewOfFile (h access offset_high offset_low : Z) (bytes : N)
  | UnmapViewOfFile (addr : Z).

(** One entry of the trace: a call and the value it returned. *)
Record event : Type := Ev { ev_call : os_call; ev_ret : Z }.

Definition trace : Type := list event.

(** The operating system: the value a call returns, and the reading of
    the clock, both as arbitrary functions of everything that happened
    before. *)
Record oracle : Type := mk_oracle {
  answer : trace -> os_call -> Z;
  clock : trace -> timespec
}.

(** Computations that make operating-system calls. *)
Definition M (A : Type) : Type := trace -> A * trace.

Definition ret {A : Type} (a : A) : M A := fun tr => (a, tr).

Definition bind {A B : Type} (m : M A) (k : A -> M B) : M B :=
  fun tr => let (a, tr') := m tr in k a tr'.

(** Make a call: ask the oracle, log the event, return the result. *)
Definition call (os : oracle) (c : os_call) : M Z :=
  fun tr => let r := answer os tr c in (r, tr ++ [Ev c r]).

(** [clock_gettime(clk, &ts)]: the value stored in [ts]. *)
Definition read_clock (os : oracle) (clk : Z) : M timespec :=
  fun tr =>
    let ts := clock os tr in
    (ts, tr ++ [Ev (clock_gettime clk ts) (answer os tr (clock_gettime clk ts))]).

(** The events a computation added to the trace it started from. *)
Definition emitted (tr tr' : trace) : trace := skipn (List.length tr) tr'.

End OS.

Declare Scope os_scope.
Delimit Scope os_scope with os.
Notation "x <- m ;; k" := (OS.bind m (fun x => k))
  (at level 61, m at next level, right associativity) : os_scope.
Notation "m ;; k" := (OS.bind m (fun _ => k))
  (at level 61, right associativity) : os_scope.
Notation "' pat <- m ;; k" := (OS.bind m (fun x => match x with pat => k end))
  (at level 61, pat pattern, m at next level, right associativity) : os_scope.
Local Open Scope os_scope.

(** [std::string::empty] *)
Definition empty (s : string) : bool :=
  match s with EmptyString => true | String _ _ => false end.

(** ** class Semaphore *)

Module Semaphore.

(** [static constexpr int max_count{ 1024 }] *)
Definition max_count : Z := 1024.

(** The data members: [std::string name] and the handle [object]
    ([HANDLE] or [sem_t*]). *)
Record t : Type := mk { name : string; object : Z }.

(** [Semaphore() {}]: the members take their default initialisers. *)
Definition default : t := {| name := ""; object := nullptr |}.

Section Methods.

Context (P : Platform) (os : OS.oracle).

Definition get_name (self : t) : string := name self.

Definition get_object (self : t) : Z := object self.

(** The deadline [wait] hands to [sem_timedwait]: the five statements
    on [ts] between [clock_gettime] and [sem_timedwait].  [timeout_ms]
    is an [unsigned int], so its quotient, remainder and the product
    are 32-bit unsigned; [tv_sec] is a [time_t] and [tv_nsec] a
    [long], whose results are taken in two's complement at the width of
    the type (C++ leaves a signed result that does not fit undefined;
    this is what the targets compute). *)
Definition wait_deadline (ts : timespec) (timeout_ms : Z) : timespec :=
  let sec :=
    wrap_signed (time_t_bits P)
      (tv_sec ts + wrap_unsigned 32 (timeout_ms / 1000)) in
  let nsec :=
    wrap_signed (long_bits P)
      (tv_nsec ts + wrap_unsigned 32 (wrap_unsigned 32 (timeout_ms mod 1000) * 1000000)) in
  if nsec >=? 1000000000 then
    {| tv_sec := wrap_signed (time_t_bits P) (sec + 1);
       tv_nsec := wrap_signed (long_bits P) (nsec - 1000000000) |}
  else
    {| tv_sec := sec; tv_nsec := nsec |}.

(** [timeout_ms] is an [unsigned int], a value in [0, 2^32). *)
Definition wait (self : t) (timeout_ms : Z) : OS.M bool :=
  if object self =? nullptr then OS.ret false
  else
    match backend P with
    | Win32 =>
        result <- OS.call os (OS.WaitForSingleObject (object self) timeout_ms) ;;
        OS.ret (result =? WAIT_OBJECT_0 P)
    | Posix =>
        if timeout_ms =? INFINITE then
          r <- OS.call os (OS.sem_wait (object self)) ;;
          OS.ret (r =? 0)
        else
          ts <- OS.read_clock os (CLOCK_REALTIME P) ;;
          r <- OS.call os (OS.sem_timedwait (object self) (wait_deadline ts timeout_ms)) ;;
          OS.ret (r =? 0)
    end.

(** [for (int i = 0; i < count; ++i) { if (sem_post(object) != 0) success = false; }]
    from the state [i], [success].  [n] bounds the iterations; [increment]
    passes the number the test [i < count] allows. *)
Fixpoint post_loop (n : nat) (sem i count : Z) (success : bool) : OS.M bool :=
  match n with
  | O => OS.ret success
  | S n' =>
      if i <? count then
        r <- OS.call os (OS.sem_post sem) ;;
        post_loop n' sem (i + 1) count (if negb (r =? 0) then false else success)
      else OS.ret success
  end.

(** [count] is an [int]; the counter [i] stays below it, so it never
    leaves the range of [int]. *)
Definition increment (self : t) (count : Z) : OS.M bool :=
  if object self =? nullptr then OS.ret false
  else
    match backend P with
    | Win32 =>
        r <- OS.call os (OS.ReleaseSemaphore (object self) count nullptr) ;;
        OS.ret (negb (r =? 0))
    | Posix => post_loop (Z.to_nat count) (object self) 0 count true
    end.

(** [close] returns the instance it leaves behind. *)
Definition close (self : t) : OS.M t :=
  if object self =? nullptr then OS.ret self
  else
    increment self max_count ;;
    match backend P with
    | Win32 => OS.call os (OS.CloseHandle (object self)) ;; OS.ret tt
    | Posix =>
        OS.call os (OS.sem_close (object self)) ;;
        if negb (empty (name self)) then
          OS.call os (OS.sem_unlink (name self)) ;; OS.ret tt
        else OS.ret tt
    end ;;
    OS.ret {| name := ""; object := nullptr |}.

(** [create] returns its result and the instance it leaves behind. *)
Definition create (self : t) (name : string) (initial_count : Z)
  : OS.M (bool * t) :=
  if empty name then OS.ret (false, self)
  else
    let self := {| name := name; object := object self |} in
    match backend P with
    | Win32 =>
        h <- OS.call os (OS.CreateSemaphoreA nullptr initial_count (LONG_MAX P) name) ;;
        OS.ret (negb (h =? nullptr), {| name := Semaphore.name self; object := h |})
    | Posix =>
        p <- OS.call os (OS.sem_open name (O_CREAT P) 438 initial_count) ;;
        OS.ret (negb (p =? SEM_FAILED P), {| name := Semaphore.name self; object := p |})
    end.

(** [Semaphore(name, initial_count)] *)
Definition construct (name : string) (initial_count : Z) : OS.M t :=
  r <- create default name initial_count ;; OS.ret (snd r).

(** [~Semaphore()] *)
Definition destroy (self : t) : OS.M t := close self.

End Methods.

(** The public calls a client can make on an instance. *)
Inductive op : Type :=
  | Create (name : string) (initial_count : Z)
  | Wait (timeout_ms : Z)
  | Increment (count : Z)
  | Close.

Definition step (P : Platform) (os : OS.oracle) (self : t) (o : op) : OS.M t :=
  match o with
  | Create name initial_count =>
      r <- create P os self name initial_count ;; OS.ret (snd r)
  | Wait timeout_ms => wait P os self timeout_ms ;; OS.ret self
  | Increment count => increment P os self count ;; OS.ret self
  | Close => close P os self
  end.

Fixpoint run (P : Platform) (os : OS.oracle) (self : t) (ops : list op) : OS.M t :=
  match ops with
  | [] => OS.ret self
  | o :: ops' => self' <- step P os self o ;; run P os self' ops'
  end.

End Semaphore.

(** ** class Shared_Memory *)

Module Shared_Memory.

(** The data members: [std::string name], [std::size_t size],
    [void* address] and the handle [file_mapping] ([HANDLE] or [int]). *)
Record t : Type := mk {
  name : string;
  size : N;
  address : Z;
  file_mapping : Z
}.

(** The default initialiser of [file_mapping]: [nullptr] for the
    [HANDLE], [-1] for the descriptor. *)
Definition invalid (P : Platform) : Z :=
  match backend P with Win32 => nullptr | Posix => -1 end.

(** [Shared_Memory() {}] *)
Definition default (P : Platform) : t :=
  {| name := ""; size := 0%N; address := nullptr; file_mapping := invalid P |}.

Section Methods.

Context (P : Platform) (os : OS.oracle).

Definition get_name (self : t) : string := name self.

Definition get_size (self : t) : N := size self.

Definition get_address (self : t) : Z := address self.

Definition get_file_mapping (self : t) : Z := file_mapping self.

Definition with_file_mapping (self : t) (fm : Z) : t :=
  {| name := name self; size := size self; address := address self;
     file_mapping := fm |}.

Definition with_address (self : t) (a : Z) : t :=
  {| name := name self; size := size self; address := a;
     file_mapping := file_mapping self |}.

Definition close (self : t) : OS.M t :=
  if file_mapping self =? invalid P then OS.ret self
  else
    match backend P with
    | Win32 =>
        (if negb (address self =? nullptr) then
           OS.call os (OS.UnmapViewOfFile (address self)) ;; OS.ret tt
         else OS.ret tt) ;;
        OS.call os (OS.CloseHandle (file_mapping self)) ;; OS.ret tt
    | Posix =>
        (if negb (address self =? nullptr) then
           OS.call os (OS.munmap (address self) (size self)) ;; OS.ret tt
         else OS.ret tt) ;;
        OS.call os (OS.close (file_mapping self)) ;;
        if negb (empty (name self)) then
          OS.call os (OS.shm_unlink (name self)) ;; OS.ret tt
        else OS.ret tt
    end ;;
    OS.ret {| name := ""; size := 0%N; address := nullptr;
              file_mapping := invalid P |}.

(** [map] returns the address and the instance it leaves behind.  Its
    first test compares [file_mapping] with [nullptr] on both backends;
    for the descriptor that is the comparison with zero. *)
Definition map (self : t) : OS.M (Z * t) :=
  if file_mapping self =? nullptr then OS.ret (nullptr, self)
  else if (size self =? 0)%N then OS.ret (nullptr, self)
  else
    match backend P with
    | Win32 =>
        address <- OS.call os
          (OS.MapViewOfFile (file_mapping self) (FILE_MAP_ALL_ACCESS P) 0 0 (size self)) ;;
        if address =? nullptr then
          OS.call os (OS.CloseHandle (file_mapping self)) ;;
          OS.ret (address, with_file_mapping self nullptr)
        else OS.ret (address, self)
    | Posix =>
        address <- OS.call os
          (OS.mmap nullptr (size self) (Z.lor (PROT_READ P) (PROT_WRITE P))
             (MAP_SHARED P) (file_mapping self) 0) ;;
        if address =? MAP_FAILED P then
          OS.call os (OS.close (file_mapping self)) ;;
          OS.ret (nullptr, with_file_mapping self (-1))
        else OS.ret (address, self)
    end.

(** The last two statements of [create]:
    [this->address = this->map(); return this->address != nullptr;] *)
Definition create_map (self : t) : OS.M (bool * t) :=
  r <- map self ;;
  let self := with_address (snd r) (fst r) in
  OS.ret (negb (address self =? nullptr), self).

(** [create] returns its result and the instance it leaves behind. *)
Definition create (self : t) (name : string) (size : N) : OS.M (bool * t) :=
  if empty name then OS.ret (false, self)
  else if (size =? 0)%N then OS.ret (false, self)
  else
    let self :=
      {| name := name; size := size; address := address self;
         file_mapping := file_mapping self |} in
    match backend P with
    | Win32 =>
        h <- OS.call os
          (OS.CreateFileMappingA (INVALID_HANDLE_VALUE P) nullptr (PAGE_READWRITE P) 0
             (wrap_unsigned 32 (Z.of_N size)) name) ;;
        create_map (with_file_mapping self h)
    | Posix =>
        shm_fd <- OS.call os (OS.shm_open name (Z.lor (O_CREAT P) (O_RDWR P)) 438) ;;
        if shm_fd =? -1 then OS.ret (false, self)
        else
          r <- OS.call os (OS.ftruncate shm_fd size) ;;
          if r =? -1 then
            OS.call os (OS.close shm_fd) ;;
            OS.call os (OS.shm_unlink name) ;;
            OS.ret (false, self)
          else create_map (with_file_mapping self shm_fd)
    end.

(** [Shared_Memory(name, size)] *)
Definition construct (name : string) (size : N) : OS.M t :=
  r <- create (default P) name size ;; OS.ret (snd r).

(** [~Shared_Memory()] *)
Definition destroy (self : t) : OS.M t := close self.

End Methods.

(** The public calls a client can make on an instance. *)
Inductive op : Type :=
  | Create (name : string) (size : N)
  | Close.

Definition step (P : Platform) (os : OS.oracle) (self : t) (o : op) : OS.M t :=
  match o with
  | Create name size => r <- create P os self name size ;; OS.ret (snd r)
  | Close => close P os self
  end.

Fixpoint run (P : Platform) (os : OS.oracle) (self : t) (ops : list op) : OS.M t :=
  match ops with
  | [] => OS.ret self
  | o :: ops' => self' <- step P os self o ;; run P os self' ops'
  end.

End Shared_Memory.

(** ** Concrete operating systems

    Oracles for running the methods on concrete inputs. *)

Module Scenario.

Definition epoch : timespec := {| tv_sec := 1700000000; tv_nsec := 0 |}.

(** An oracle that answers by the call alone. *)
Definition stateless (f : OS.os_call -> Z) : OS.oracle :=
  {| OS.answer := fun _ c => f c; OS.clock := fun _ => epoch |}.

(** Every call succeeds: handles are [4096], the descriptor is [3],
    the mapping is at [8192], everything else returns its success
    value. *)
Definition os_ok : OS.oracle :=
  stateless (fun c =>
    match c with
    | OS.sem_open _ _ _ _ => 4096
    | OS.shm_open _ _ _ => 3
    | OS.mmap _ _ _ _ _ _ => 8192
    | OS.CreateSemaphoreA _ _ _ _ => 4096
    | OS.CreateFileMappingA _ _ _ _ _ _ => 4096
    | OS.MapViewOfFile _ _ _ _ _ => 8192
    | OS.ReleaseSemaphore _ _ _ => 1
    | OS.CloseHandle _ => 1
    | OS.UnmapViewOfFile _ => 1
    | _ => 0
    end).

(** Every call fails with the failure value of its documentation
    (on [linux], [linux32] and [windows]). *)
Definition os_refuse : OS.oracle :=
  stateless (fun c =>
    match c with
    | OS.sem_open _ _ _ _ => 0
    | OS.CreateSemaphoreA _ _ _ _ => 0
    | OS.CreateFileMappingA _ _ _ _ _ _ => 0
    | OS.MapViewOfFile _ _ _ _ _ => 0
    | OS.ReleaseSemaphore _ _ _ => 0
    | OS.CloseHandle _ => 0
    | OS.UnmapViewOfFile _ => 0
    | OS.WaitForSingleObject _ _ => 4294967295
    | _ => -1
    end).

(** The backing object is created and resized, the mapping fails. *)
Definition os_map_fails : OS.oracle :=
  stateless (fun c =>
    match c with
    | OS.shm_open _ _ _ => 3
    | OS.mmap _ _ _ _ _ _ => -1
    | OS.CreateFileMappingA _ _ _ _ _ _ => 4096
    | OS.MapViewOfFile _ _ _ _ _ => 0
    | OS.CloseHandle _ => 1
    | _ => 0
    end).

Definition is_sem_post (e : OS.event) : bool :=
  match OS.ev_call e with OS.sem_post _ => true | _ => false end.

(** As [os_ok], but the second [sem_post] of the run fails. *)
Definition os_second_post_fails : OS.oracle :=
  {| OS.answer := fun tr c =>
       match c with
       | OS.sem_post _ =>
           if (List.length (filter is_sem_post tr) =? 1)%nat then -1 else 0
       | _ => OS.answer os_ok tr c
       end;
     OS.clock := fun _ => epoch |}.

(** As [os_ok], with the clock at the given reading. *)
Definition os_at (now : timespec) : OS.oracle :=
  {| OS.answer := OS.answer os_ok; OS.clock := fun _ => now |}.

(** As [os_ok], but [sem_open] fails with the [SEM_FAILED] of the
    platform. *)
Definition os_sem_refused (P : Platform) : OS.oracle :=
  stateless (fun c =>
    match c with
    | OS.sem_open _ _ _ _ => SEM_FAILED P
    | _ => OS.answer os_ok [] c
    end).

(** As [os_ok], but [ftruncate] fails. *)
Definition os_resize_fails : OS.oracle :=
  stateless (fun c =>
    match c with
    | OS.ftruncate _ _ => -1
    | _ => OS.answer os_ok [] c
    end).

End Scenario.

(** ** Vocabulary of the statements *)

(** The values the oracle returns to [n] successive [sem_post sem]
    calls made from the trace [tr]. *)
Fixpoint post_results (os : OS.oracle) (sem : Z) (tr : OS.trace) (n : nat)
  : list Z :=
  match n with
  | O => []
  | S n' =>
      let r := OS.answer os tr (OS.sem_post sem) in
      r :: post_results os sem (tr ++ [OS.Ev (OS.sem_post sem) r]) n'
  end.

(** The events of successive [sem_post sem] calls that returned [rets]. *)
Definition posted (sem : Z) (rets : list Z) : OS.trace :=
  List.map (OS.Ev (OS.sem_post sem)) rets.

(** The call [map] makes to map the object behind the handle [h]. *)
Definition map_call (P : Platform) (h : Z) (size : N) : OS.os_call :=
  match backend P with
  | Win32 => OS.MapViewOfFile h (FILE_MAP_ALL_ACCESS P) 0 0 size
  | Posix =>
      OS.mmap nullptr size (Z.lor (PROT_READ P) (PROT_WRITE P)) (MAP_SHARED P) h 0
  end.

(** The value with which that call reports failure. *)
Definition map_failure (P : Platform) : Z :=
  match backend P with Win32 => nullptr | Posix => MAP_FAILED P end.

(** The call that releases the handle [h]. *)
Definition release_call (P : Platform) (h : Z) : OS.os_call :=
  match backend P with Win32 => OS.CloseHandle h | Posix => OS.close h end.

(** The handle value with which the operating system reports that it
    could not create the semaphore. *)
Definition sem_failure (P : Platform) : Z :=
  match backend P with Win32 => nullptr | Posix => SEM_FAILED P end.


(** The handle is set only while a name is stored. *)
Definition handle_has_name (self : Semaphore.t) : Prop :=
  Semaphore.object self <> nullptr -> Semaphore.name self <> "".

(** A [Shared_Memory] whose handle is invalid has no mapping. *)
Definition unmapped_when_invalid (P : Platform) (self : Shared_Memory.t) : Prop :=
  Shared_Memory.file_mapping self = Shared_Memory.invalid P ->
  Shared_Memory.address self = nullptr.

(** The deadline of [wait_deadline] computed on unbounded integers:
    the same statements with no result cut to the width of its type. *)
Definition exact_deadline (now : timespec) (timeout_ms : Z) : timespec :=
  let nsec := tv_nsec now + (timeout_ms mod 1000) * 1000000 in
  if nsec >=? 1000000000 then
    {| tv_sec := tv_sec now + timeout_ms / 1000 + 1; tv_nsec := nsec - 1000000000 |}
  else
    {| tv_sec := tv_sec now + timeout_ms / 1000; tv_nsec := nsec |}.

(** The call [create] makes to open the backing object. *)
Definition open_call (P : Platform) (name : string) (size : N) : OS.os_call :=
  match backend P with
  | Win32 =>
      OS.CreateFileMappingA (INVALID_HANDLE_VALUE P) nullptr (PAGE_READWRITE P) 0
        (wrap_unsigned 32 (Z.of_N size)) name
  | Posix => OS.shm_open name (Z.lor (O_CREAT P) (O_RDWR P)) 438
  end.

(** The call [Semaphore::create] makes to open the semaphore. *)
Definition sem_open_call (P : Platform) (name : string) (initial_count : Z)
  : OS.os_call :=
  match backend P with
  | Win32 => OS.CreateSemaphoreA nullptr initial_count (LONG_MAX P) name
  | Posix => OS.sem_open name (O_CREAT P) 438 initial_count
  end.

(** The call that removes the mapping at [addr]. *)
Definition unmap_call (P : Platform) (addr : Z) (size : N) : OS.os_call :=
  match backend P with
  | Win32 => OS.UnmapViewOfFile addr
  | Posix => OS.munmap addr size
  end.

(** The call is one [Shared_Memory::create] can make on the object it
    has just opened as [h] under [name]: resize, map, release, unlink. *)
Definition acts_on_new (P : Platform) (h : Z) (name : string) (size : N)
  (c : OS.os_call) : Prop :=
  c = OS.ftruncate h size \/ c = map_call P h size \/
  c = release_call P h \/ c = OS.shm_unlink name.

Definition is_shm_unlink (e : OS.event) : bool :=
  match OS.ev_call e with OS.shm_unlink _ => true | _ => false end.

Definition is_create (o : Semaphore.op) : bool :=
  match o with Semaphore.Create _ _ => true | _ => false end.

(** The events with which [Semaphore::close] releases the handle [h]
    opened under [name], after the drain: the calls, with the values
    [r1], [r2] they returned. *)
Definition sem_release (P : Platform) (h : Z) (name : string) (r1 r2 : Z)
  : OS.trace :=
  match backend P with
  | Win32 => [OS.Ev (OS.CloseHandle h) r1]
  | Posix => [OS.Ev (OS.sem_close h) r1; OS.Ev (OS.sem_unlink name) r2]
  end.

(** The events of the drain [increment(max_count)] on the handle [h]
    from the trace [tr]. *)
Definition sem_drain (P : Platform) (os : OS.oracle) (h : Z) (tr : OS.trace)
  : OS.trace :=
  match backend P with
  | Win32 =>
      [OS.Ev (OS.ReleaseSemaphore h Semaphore.max_count nullptr)
         (OS.answer os tr (OS.ReleaseSemaphore h Semaphore.max_count nullptr))]
  | Posix => posted h (post_results os h tr (Z.to_nat Semaphore.max_count))
  end.

(** The invariant of [Shared_Memory]: a mapped address comes with a
    valid handle, a valid handle with a name and a size. *)
Definition shm_consistent (P : Platform) (self : Shared_Memory.t) : Prop :=
  (Shared_Memory.address self <> nullptr ->
   Shared_Memory.file_mapping self <> Shared_Memory.invalid P) /\
  (Shared_Memory.file_mapping self <> Shared_Memory.invalid P ->
   Shared_Memory.name self <> "" /\ Shared_Memory.size self <> 0%N).

(** The event is a wait on the handle [h] that the operating system
    reported as acquired. *)
Definition granted (P : Platform) (h : Z) (e : OS.event) : Prop :=
  match backend P with
  | Win32 => exists ms, e = OS.Ev (OS.WaitForSingleObject h ms) (WAIT_OBJECT_0 P)
  | Posix =>
      e = OS.Ev (OS.sem_wait h) 0 \/
      exists ts, e = OS.Ev (OS.sem_timedwait h ts) 0
  end.

(** The event is a release on the handle [h] that the operating system
    reported as done. *)
Definition released (P : Platform) (h count : Z) (e : OS.event) : Prop :=
  match backend P with
  | Win32 => exists r, r <> 0 /\ e = OS.Ev (OS.ReleaseSemaphore h count nullptr) r
  | Posix => e = OS.Ev (OS.sem_post h) 0
  end.

(** The event is an opening of a semaphore that returned the null
    handle. *)
Definition opened_null (e : OS.event) : bool :=
  match OS.ev_call e with
  | OS.sem_open _ _ _ _ => OS.ev_ret e =? nullptr
  | OS.CreateSemaphoreA _ _ _ _ => OS.ev_ret e =? nullptr
  | _ => false
  end.

(** At the trace [tr], reached from the trace [tr0], a stored name
    comes with a handle, unless the last call since [tr0] was an
    opening of the stored name that returned the null handle. *)
Definition name_has_handle (P : Platform) (tr0 : OS.trace)
  (self : Semaphore.t) (tr : OS.trace) : Prop :=
  exists evs,
    tr = tr0 ++ evs /\
    (Semaphore.name self <> "" -> Semaphore.object self = nullptr ->
     exists initial_count pre,
       evs = pre ++ [OS.Ev (sem_open_call P (Semaphore.name self) initial_count)
                       nullptr]).

(** * Properties *)

(** ** The release loop of [Semaphore::increment] *)

Section PostLoop.

Context (P : Platform) (os : OS.oracle).

Lemma post_results_length sem tr n :
  List.length (post_results os sem tr n) = n.
Proof.
  revert tr. induction n as [|n IH]; intros tr; simpl; [reflexivity|].
  now rewrite IH.
Qed.

(** Once [i] has reached [count] the loop is over, whatever the bound. *)
Lemma post_loop_exit n sem i count success tr :
  count <= i ->
  Semaphore.post_loop os n sem i count success tr = (success, tr).
Proof.
  intros Hle. destruct n as [|n]; simpl; [reflexivity|].
  destruct (Z.ltb_spec i count); [lia | reflexivity].
Qed.

(** With [count - i] iterations left the loop posts [count - i] times. *)
Lemma post_loop_spec n : forall sem i count success tr,
  Z.of_nat n = count - i ->
  Semaphore.post_loop os n sem i count success tr =
    (success && forallb (Z.eqb 0) (post_results os sem tr n),
     tr ++ posted sem (post_results os sem tr n)).
Proof.
  induction n as [|n IH]; intros sem i count success tr Hn.
  - simpl. now rewrite andb_true_r, app_nil_r.
  - cbn [Semaphore.post_loop post_results].
    destruct (Z.ltb_spec i count) as [_|Hge]; [|lia].
    unfold OS.bind at 1. unfold OS.call at 1. cbv zeta.
    rewrite (IH sem (i + 1) count) by lia.
    cbn [forallb posted List.map].
    rewrite <- app_assoc. cbn [app]. f_equal.
    rewrite (Z.eqb_sym 0).
    destruct (OS.answer os tr (OS.sem_post sem) =? 0), success; reflexivity.
Qed.

(** The bound [increment] passes is not a restriction: any larger one
    gives the same run. *)
Lemma post_loop_bound n sem count success tr :
  (Z.to_nat count <= n)%nat ->
  Semaphore.post_loop os n sem 0 count success tr =
  Semaphore.post_loop os (Z.to_nat count) sem 0 count success tr.
Proof.
  assert (G : forall m k i b t, Z.of_nat m = count - i ->
            Semaphore.post_loop os (m + k) sem i count b t =
            Semaphore.post_loop os m sem i count b t).
  { induction m as [|m IH]; intros k i b t Hm.
    - simpl. rewrite post_loop_exit by lia. reflexivity.
    - cbn [Nat.add Semaphore.post_loop].
      destruct (Z.ltb_spec i count); [|reflexivity].
      unfold OS.bind, OS.call. cbv zeta. apply IH. lia. }
  intros Hle. destruct (Z.le_gt_cases count 0) as [Hc|Hc].
  - rewrite !post_loop_exit by lia. reflexivity.
  - replace n with (Z.to_nat count + (n - Z.to_nat count))%nat by lia.
    apply G. lia.
Qed.

End PostLoop.

(** ** Rejected arguments *)

(** C6.  [Semaphore::create] with an empty name, and
    [Shared_Memory::create] with an empty name or with size zero, return
    [false], make no operating-system call (the trace is the one they
    started from) and leave every field of the instance as it was, on
    both backends and from every state. *)
Theorem create_rejects_invalid_arguments :
  forall (P : Platform) (os : OS.oracle),
    (forall self initial_count tr,
        Semaphore.create P os self "" initial_count tr = ((false, self), tr)) /\
    (forall self size tr,
        Shared_Memory.create P os self "" size tr = ((false, self), tr)) /\
    (forall self name tr,
        Shared_Memory.create P os self name 0%N tr = ((false, self), tr)).
Proof.
  intros P os. split; [|split]; intros.
  - reflexivity.
  - reflexivity.
  - unfold Shared_Memory.create. destruct name; reflexivity.
Qed.

(** ** [Semaphore::increment] on the descriptor-style backend *)

Lemma increment_posix P os self count tr :
  backend P = Posix ->
  Semaphore.object self <> nullptr ->
  0 <= count ->
  Semaphore.increment P os self count tr =
    (forallb (Z.eqb 0) (post_results os (Semaphore.object self) tr (Z.to_nat count)),
     tr ++ posted (Semaphore.object self)
             (post_results os (Semaphore.object self) tr (Z.to_nat count))).
Proof.
  intros HP Hobj Hc. unfold Semaphore.increment.
  destruct (Z.eqb_spec (Semaphore.object self) nullptr); [contradiction|].
  rewrite HP. rewrite (post_loop_spec os (Z.to_nat count)) by lia.
  reflexivity.
Qed.

(** C9.  On the descriptor-style backend, [increment(count)] with
    [count <= 0] on an instance whose handle is set returns [true] and
    makes no call at all: the trace is unchanged. *)
Theorem increment_nonpositive_count :
  forall (P : Platform) (os : OS.oracle) self count tr,
    backend P = Posix ->
    Semaphore.object self <> nullptr ->
    count <= 0 ->
    Semaphore.increment P os self count tr = (true, tr).
Proof.
  intros P os self count tr HP Hobj Hc.
  unfold Semaphore.increment.
  destruct (Z.eqb_spec (Semaphore.object self) nullptr); [contradiction|].
  rewrite HP. apply post_loop_exit. exact Hc.
Qed.

Lemma increment_nonpositive_count_witness :
  Semaphore.increment linux Scenario.os_refuse (Semaphore.mk "/s" 4096) (-3) []
  = (true, []).
Proof.
  apply increment_nonpositive_count; [reflexivity | discriminate | lia].
Defined.

(** C7.  On the descriptor-style backend, [increment(count)] with
    [0 <= count] on an instance whose handle is set makes exactly
    [count] calls, each a [sem_post] on the handle with its own result;
    it returns [true] exactly when every one of them returned [0]; and
    the trace it leaves is the old trace followed by those calls and
    nothing else, so a unit released before a failing call stays
    released. *)
Theorem increment_posts_count_times :
  forall (P : Platform) (os : OS.oracle) self count tr,
    backend P = Posix ->
    Semaphore.object self <> nullptr ->
    0 <= count ->
    let rets := post_results os (Semaphore.object self) tr (Z.to_nat count) in
    Z.of_nat (List.length rets) = count /\
    Semaphore.increment P os self count tr =
      (forallb (Z.eqb 0) rets, tr ++ posted (Semaphore.object self) rets).
Proof.
  intros P os self count tr HP Hobj Hc rets. split.
  - unfold rets. rewrite post_results_length. lia.
  - apply increment_posix; assumption.
Qed.

Lemma increment_posts_count_times_witness :
  Semaphore.increment linux Scenario.os_second_post_fails
    (Semaphore.mk "/s" 4096) 3 []
  = (false, posted 4096 [0; -1; 0]).
Proof.
  exact (proj2 (increment_posts_count_times linux Scenario.os_second_post_fails
                  (Semaphore.mk "/s" 4096) 3 []
                  eq_refl ltac:(discriminate) ltac:(lia))).
Defined.

(** ** [Semaphore::close] *)

Lemma empty_false (s : string) : s <> "" -> empty s = false.
Proof. destruct s; [congruence | reflexivity]. Qed.

Lemma empty_true (s : string) : empty s = true -> s = "".
Proof. destruct s; [reflexivity | discriminate]. Qed.

Lemma empty_false_inv (s : string) : empty s = false -> s <> "".
Proof. destruct s; [discriminate | discriminate]. Qed.

(** C4.  [Semaphore::close] on an instance whose handle is null changes
    nothing and makes no call.  On an open instance (handle set, name
    non-empty) it first runs [increment(max_count)] with
    [max_count = 1024] (1024 [sem_post] calls on the descriptor-style
    backend, one [ReleaseSemaphore] of 1024 on the handle-style one),
    then releases the handle ([sem_close] followed by [sem_unlink] of
    the name, or [CloseHandle]), and leaves the default-constructed
    instance, whatever the operating system answered. *)
Theorem semaphore_close_sequence :
  forall (P : Platform) (os : OS.oracle) self tr,
    (Semaphore.object self = nullptr ->
       Semaphore.close P os self tr = (self, tr)) /\
    (Semaphore.object self <> nullptr ->
     Semaphore.name self <> "" ->
       exists drained tr1,
         Semaphore.max_count = 1024 /\
         Semaphore.increment P os self Semaphore.max_count tr = (drained, tr1) /\
         match backend P with
         | Posix =>
             exists r1 r2,
               tr1 = tr ++ posted (Semaphore.object self)
                              (post_results os (Semaphore.object self) tr
                                 (Z.to_nat Semaphore.max_count)) /\
               Semaphore.close P os self tr =
                 (Semaphore.default,
                  tr1 ++ [OS.Ev (OS.sem_close (Semaphore.object self)) r1;
                          OS.Ev (OS.sem_unlink (Semaphore.name self)) r2])
         | Win32 =>
             exists r0 r1,
               tr1 = tr ++ [OS.Ev (OS.ReleaseSemaphore (Semaphore.object self) 1024 nullptr) r0] /\
               Semaphore.close P os self tr =
                 (Semaphore.default,
                  tr1 ++ [OS.Ev (OS.CloseHandle (Semaphore.object self)) r1])
         end).
Proof.
  intros P os self tr. split.
  - intros Hnull. unfold Semaphore.close. rewrite Hnull. reflexivity.
  - intros Hobj Hname.
    unfold Semaphore.close.
    destruct (Z.eqb_spec (Semaphore.object self) nullptr) as [|_]; [contradiction|].
    destruct (Semaphore.increment P os self Semaphore.max_count tr)
      as [drained tr1] eqn:Hinc.
    exists drained, tr1. split; [reflexivity|]. split; [reflexivity|].
    destruct (backend P) eqn:HP.
    + unfold Semaphore.increment in Hinc.
      destruct (Z.eqb_spec (Semaphore.object self) nullptr) as [|_]; [contradiction|].
      rewrite HP in Hinc. unfold OS.bind, OS.call, OS.ret in Hinc.
      apply pair_equal_spec in Hinc as [_ Htr1].
      eexists _, _. split; [symmetry; exact Htr1|].
      unfold Semaphore.increment.
      destruct (Z.eqb_spec (Semaphore.object self) nullptr) as [|_]; [contradiction|].
      rewrite HP. unfold OS.bind, OS.call, OS.ret. rewrite Htr1.
      unfold Semaphore.default. reflexivity.
    + pose proof (increment_posix P os self Semaphore.max_count tr
                    HP Hobj ltac:(unfold Semaphore.max_count; lia)) as Hspec.
      remember (Z.to_nat Semaphore.max_count) as n eqn:Hn. clear Hn.
      rewrite Hspec in Hinc. apply pair_equal_spec in Hinc as [_ Htr1].
      eexists _, _. split; [symmetry; exact Htr1|].
      unfold OS.bind at 1. rewrite Hspec.
      unfold OS.bind, OS.call, OS.ret.
      rewrite (empty_false _ Hname). cbn [negb].
      rewrite Htr1. rewrite <- app_assoc. reflexivity.
Qed.

Lemma semaphore_close_sequence_witness :
  Semaphore.close linux Scenario.os_refuse Semaphore.default [] =
    (Semaphore.default, []) /\
  fst (Semaphore.close linux Scenario.os_refuse (Semaphore.mk "/s" 4096) []) =
    Semaphore.default.
Proof.
  split.
  - apply (proj1 (semaphore_close_sequence linux Scenario.os_refuse
                    Semaphore.default [])).
    reflexivity.
  - destruct (proj2 (semaphore_close_sequence linux Scenario.os_refuse
                       (Semaphore.mk "/s" 4096) [])
                ltac:(discriminate) ltac:(discriminate))
      as (drained & tr1 & _ & _ & r1 & r2 & _ & Hclose).
    rewrite Hclose. reflexivity.
Defined.

(** ** Stepping through the methods *)

Ltac unfold_os := unfold OS.bind, OS.call, OS.read_clock, OS.ret in *; cbv zeta in *.

Ltac split_if :=
  match goal with
  | H : context [if ?b then _ else _] |- _ => destruct b eqn:?
  | |- context [if ?b then _ else _] => destruct b eqn:?
  end.

Ltac split_pair :=
  match goal with
  | H : (_, _) = (_, _) |- _ => apply pair_equal_spec in H; destruct H
  end.

Ltac eqb_facts :=
  repeat match goal with
  | H : (_ =? _) = true |- _ => apply Z.eqb_eq in H
  | H : (_ =? _) = false |- _ => apply Z.eqb_neq in H
  | H : (_ =? _)%N = true |- _ => apply N.eqb_eq in H
  | H : (_ =? _)%N = false |- _ => apply N.eqb_neq in H
  | H : negb _ = true |- _ => apply negb_true_iff in H
  | H : negb _ = false |- _ => apply negb_false_iff in H
  | H : empty _ = true |- _ => apply empty_true in H
  | H : empty _ = false |- _ => apply empty_false_inv in H
  end.

(** ** [Shared_Memory::close] *)

Lemma shared_memory_close_invalid P os self tr :
  Shared_Memory.file_mapping self = Shared_Memory.invalid P ->
  Shared_Memory.close P os self tr = (self, tr).
Proof.
  intros H. unfold Shared_Memory.close. rewrite H, Z.eqb_refl. reflexivity.
Qed.

Lemma shared_memory_close_valid P os self tr :
  Shared_Memory.file_mapping self <> Shared_Memory.invalid P ->
  exists evs,
    Shared_Memory.close P os self tr = (Shared_Memory.default P, tr ++ evs).
Proof.
  intros H. unfold Shared_Memory.close.
  destruct (Z.eqb_spec (Shared_Memory.file_mapping self) (Shared_Memory.invalid P));
    [contradiction|].
  unfold Shared_Memory.default.
  destruct (backend P); unfold_os; repeat split_if;
    rewrite <- ?app_assoc; eexists; reflexivity.
Qed.

Lemma shared_memory_close_repeat P os n : forall self tr,
  Shared_Memory.file_mapping self = Shared_Memory.invalid P ->
  Shared_Memory.run P os self (repeat Shared_Memory.Close n) tr = (self, tr).
Proof.
  induction n as [|n IH]; intros self tr H; [reflexivity|].
  cbn [repeat Shared_Memory.run Shared_Memory.step]. unfold OS.bind.
  rewrite shared_memory_close_invalid by exact H. apply IH, H.
Qed.

(** What a [create] that got past its argument checks leaves in [name]
    and [size]: the arguments, on every path. *)
Lemma shared_memory_create_stores P os self name size tr ok self' tr' :
  name <> "" -> size <> 0%N ->
  Shared_Memory.create P os self name size tr = (ok, self', tr') ->
  Shared_Memory.name self' = name /\ Shared_Memory.size self' = size.
Proof.
  intros Hname Hsize H. unfold Shared_Memory.create in H.
  rewrite (empty_false _ Hname) in H.
  destruct (N.eqb_spec size 0); [contradiction|].
  unfold Shared_Memory.create_map, Shared_Memory.map in H.
  destruct (backend P); unfold_os; cbn [Shared_Memory.file_mapping
    Shared_Memory.size Shared_Memory.with_file_mapping] in H;
    repeat split_if; repeat split_pair; subst; split; reflexivity.
Qed.

(** A [create] that leaves the handle invalid has failed. *)
Lemma shared_memory_create_invalid_fails P os self name size tr ok self' tr' :
  name <> "" -> size <> 0%N ->
  Shared_Memory.create P os self name size tr = (ok, self', tr') ->
  Shared_Memory.file_mapping self = Shared_Memory.invalid P ->
  Shared_Memory.file_mapping self' = Shared_Memory.invalid P ->
  ok = false.
Proof.
  intros Hname Hsize H Hfm Hfm'. unfold Shared_Memory.create in H.
  rewrite (empty_false _ Hname) in H.
  destruct (N.eqb_spec size 0); [contradiction|].
  unfold Shared_Memory.create_map, Shared_Memory.map in H.
  unfold Shared_Memory.invalid in *.
  destruct (backend P); unfold_os; cbn [Shared_Memory.file_mapping
    Shared_Memory.size Shared_Memory.with_file_mapping] in H;
    repeat split_if; repeat split_pair; subst;
    cbn [Shared_Memory.address Shared_Memory.with_address
         Shared_Memory.file_mapping Shared_Memory.with_file_mapping fst snd] in *;
    eqb_facts; try reflexivity; try congruence.
  match goal with H : _ = nullptr |- _ => rewrite H end. reflexivity.
Qed.

(** C10.  [Shared_Memory::close] on an instance whose [file_mapping] is
    the invalid sentinel returns at once: no call is made and every
    field, [name] and [size] included, keeps its value, however often
    [close] is repeated.  A [create] on a default-constructed instance
    that got past its argument checks and left the handle invalid has
    failed, has left the requested [name] and [size] in the instance,
    and no number of [close] calls brings the instance back to the
    default-constructed one. *)
Theorem shared_memory_close_keeps_stale_fields :
  forall (P : Platform) (os : OS.oracle),
    (forall self tr,
        Shared_Memory.file_mapping self = Shared_Memory.invalid P ->
        Shared_Memory.close P os self tr = (self, tr)) /\
    (forall self tr n,
        Shared_Memory.file_mapping self = Shared_Memory.invalid P ->
        Shared_Memory.run P os self (repeat Shared_Memory.Close n) tr = (self, tr)) /\
    (forall name size tr ok self' tr' n,
        name <> "" -> size <> 0%N ->
        Shared_Memory.create P os (Shared_Memory.default P) name size tr = (ok, self', tr') ->
        Shared_Memory.file_mapping self' = Shared_Memory.invalid P ->
        ok = false /\
        Shared_Memory.name self' = name /\
        Shared_Memory.size self' = size /\
        fst (Shared_Memory.run P os self' (repeat Shared_Memory.Close n) tr') = self' /\
        self' <> Shared_Memory.default P).
Proof.
  intros P os. split; [|split].
  - intros self tr. apply shared_memory_close_invalid.
  - intros self tr n. apply shared_memory_close_repeat.
  - intros name size tr ok self' tr' n Hname Hsize Hcreate Hfm.
    destruct (shared_memory_create_stores _ _ _ _ _ _ _ _ _ Hname Hsize Hcreate)
      as [Hn Hs].
    split; [|split; [|split; [|split]]]; try assumption.
    + eapply shared_memory_create_invalid_fails; eauto.
    + rewrite shared_memory_close_repeat by exact Hfm. reflexivity.
    + intros ->. apply Hname. symmetry. exact Hn.
Qed.

Lemma shared_memory_close_keeps_stale_fields_witness :
  Shared_Memory.close linux Scenario.os_refuse
    (Shared_Memory.mk "/m" 16 nullptr (-1)) [] =
    (Shared_Memory.mk "/m" 16 nullptr (-1), []) /\
  Shared_Memory.run linux Scenario.os_refuse
    (Shared_Memory.mk "/m" 16 nullptr (-1)) (repeat Shared_Memory.Close 3) [] =
    (Shared_Memory.mk "/m" 16 nullptr (-1), []) /\
  Shared_Memory.mk "/m" 16 nullptr (-1) <> Shared_Memory.default linux.
Proof.
  pose proof (shared_memory_close_keeps_stale_fields linux Scenario.os_refuse)
    as (Hclose & Hrepeat & Hstale).
  split; [|split].
  - apply Hclose. reflexivity.
  - apply Hrepeat. reflexivity.
  - refine (proj2 (proj2 (proj2 (proj2
      (Hstale "/m" 16%N [] false (Shared_Memory.mk "/m" 16 nullptr (-1))
         [OS.Ev (OS.shm_open "/m" 66 438) (-1)] 3%nat _ _ _ _))))).
    + discriminate.
    + discriminate.
    + reflexivity.
    + reflexivity.
Defined.

(** ** Failure of the mapping step *)

Lemma emitted_app (tr evs : OS.trace) : OS.emitted tr (tr ++ evs) = evs.
Proof.
  unfold OS.emitted. induction tr as [|e tr IH]; [reflexivity | exact IH].
Qed.

Lemma emitted_same (tr : OS.trace) : OS.emitted tr tr = [].
Proof.
  rewrite <- (app_nil_r tr) at 2. apply emitted_app.
Qed.

Ltac flatten_trace :=
  repeat rewrite <- app_assoc in *; cbn [app] in *.

Ltac in_cases H :=
  cbn [In] in H;
  repeat match type of H with _ \/ _ => destruct H as [H|H] end;
  try contradiction; try discriminate H.

(** C3, as amended.  When the operating system's mapping call ([mmap],
    [MapViewOfFile]) reports failure during [create], [create] returns
    [false], the call is followed at once by the release of the handle
    ([close], [CloseHandle]), and [file_mapping] and [address] hold their
    default values; [name] and [size] hold the arguments of [create],
    not their default values. *)
Theorem map_failure_releases_handle :
  forall (P : Platform) (os : OS.oracle) self name size tr ok self' tr',
    Shared_Memory.create P os self name size tr = (ok, self', tr') ->
    (exists h, In (OS.Ev (map_call P h size) (map_failure P)) (OS.emitted tr tr')) ->
    ok = false /\
    Shared_Memory.file_mapping self' = Shared_Memory.invalid P /\
    Shared_Memory.address self' = nullptr /\
    Shared_Memory.name self' = name /\
    Shared_Memory.size self' = size /\
    exists pre h r,
      tr' = tr ++ pre ++ [OS.Ev (map_call P h size) (map_failure P);
                          OS.Ev (release_call P h) r].
Proof.
  intros P os self name size tr ok self' tr' Hcreate [h Hin].
  unfold Shared_Memory.create in Hcreate.
  unfold Shared_Memory.create_map, Shared_Memory.map in Hcreate.
  unfold map_call, map_failure, release_call, Shared_Memory.invalid in *.
  destruct (backend P); unfold_os;
    cbn [Shared_Memory.file_mapping Shared_Memory.size Shared_Memory.with_file_mapping]
      in Hcreate;
    repeat split_if; repeat split_pair; subst;
    cbn [Shared_Memory.address Shared_Memory.with_address Shared_Memory.name
         Shared_Memory.size
         Shared_Memory.file_mapping Shared_Memory.with_file_mapping fst snd] in *;
    flatten_trace; rewrite ?emitted_same, ?emitted_app in Hin; in_cases Hin.
  all: eqb_facts; injection Hin as Hh Hr; subst h; try congruence.
  all: rewrite Hr; cbn [negb Z.eqb nullptr]; rewrite ?Z.eqb_refl.
  all: repeat (split; [reflexivity|]).
  - eexists [_], _, _. cbn [app]. reflexivity.
  - eexists [_; _], _, _. cbn [app]. reflexivity.
Qed.

Lemma map_failure_releases_handle_witness :
  exists pre h r,
    [OS.Ev (OS.shm_open "/m" 66 438) 3; OS.Ev (OS.ftruncate 3 16) 0;
     OS.Ev (OS.mmap 0 16 3 1 3 0) (-1); OS.Ev (OS.close 3) 0] =
    [] ++ pre ++ [OS.Ev (map_call linux h 16) (map_failure linux);
                  OS.Ev (release_call linux h) r].
Proof.
  refine (proj2 (proj2 (proj2 (proj2 (proj2
    (map_failure_releases_handle linux Scenario.os_map_fails
       (Shared_Memory.default linux) "/m" 16%N [] false
       (Shared_Memory.mk "/m" 16 nullptr (-1))
       [OS.Ev (OS.shm_open "/m" 66 438) 3; OS.Ev (OS.ftruncate 3 16) 0;
        OS.Ev (OS.mmap 0 16 3 1 3 0) (-1); OS.Ev (OS.close 3) 0]
       eq_refl _)))))).
  exists 3. right. right. left. reflexivity.
Defined.

(** C3 as stated fails: with the object created and resized and the
    mapping refused, [map] returns null and releases the handle, and
    [create] leaves an instance that still carries the name and the
    size, on either backend. *)
Lemma map_failure_keeps_name_and_size :
  let tr2 := [OS.Ev (OS.shm_open "/m" 66 438) 3; OS.Ev (OS.ftruncate 3 16) 0] in
  let ev3 := [OS.Ev (OS.mmap 0 16 3 1 3 0) (-1); OS.Ev (OS.close 3) 0] in
  Shared_Memory.map linux Scenario.os_map_fails
    (Shared_Memory.mk "/m" 16 nullptr 3) tr2 =
    ((nullptr, Shared_Memory.mk "/m" 16 nullptr (-1)), tr2 ++ ev3) /\
  Shared_Memory.create linux Scenario.os_map_fails
    (Shared_Memory.default linux) "/m" 16 [] =
    ((false, Shared_Memory.mk "/m" 16 nullptr (-1)), tr2 ++ ev3) /\
  Shared_Memory.mk "/m" 16 nullptr (-1) <> Shared_Memory.default linux /\
  fst (Shared_Memory.create windows Scenario.os_map_fails
         (Shared_Memory.default windows) "/m" 16 []) =
    (false, Shared_Memory.mk "/m" 16 nullptr nullptr) /\
  Shared_Memory.mk "/m" 16 nullptr nullptr <> Shared_Memory.default windows.
Proof.
  repeat split; try reflexivity; discriminate.
Qed.

(** ** Failing [create] *)




(** ** Reachable states *)

Lemma semaphore_close_null P os self tr :
  Semaphore.object self = nullptr ->
  Semaphore.close P os self tr = (self, tr).
Proof.
  intros H. unfold Semaphore.close. rewrite H. reflexivity.
Qed.

Lemma semaphore_close_set P os self tr :
  Semaphore.object self <> nullptr ->
  fst (Semaphore.close P os self tr) = Semaphore.default.
Proof.
  intros H. unfold Semaphore.close.
  destruct (Z.eqb_spec (Semaphore.object self) nullptr); [contradiction|].
  unfold OS.bind at 1.
  destruct (Semaphore.increment P os self Semaphore.max_count tr) as [b tr1].
  destruct (backend P); unfold_os; repeat split_if; reflexivity.
Qed.

Lemma semaphore_step_keeps P os self o tr :
  handle_has_name self ->
  handle_has_name (fst (Semaphore.step P os self o tr)).
Proof.
  intros Hinv. destruct o as [name initial_count | timeout_ms | count |];
    cbn [Semaphore.step]; try unfold OS.bind at 1.
  - unfold Semaphore.create.
    destruct (empty name) eqn:Hname; [exact Hinv|].
    apply empty_false_inv in Hname.
    destruct (backend P); unfold_os; cbn; intros _; exact Hname.
  - destruct (Semaphore.wait P os self timeout_ms tr). exact Hinv.
  - destruct (Semaphore.increment P os self count tr). exact Hinv.
  - destruct (Z.eq_dec (Semaphore.object self) nullptr) as [Hnull|Hset].
    + rewrite semaphore_close_null by exact Hnull. exact Hinv.
    + rewrite (semaphore_close_set P os self tr Hset).
      intros Habs. now contradiction Habs.
Qed.

Lemma semaphore_run_keeps P os ops : forall self tr,
  handle_has_name self ->
  handle_has_name (fst (Semaphore.run P os self ops tr)).
Proof.
  induction ops as [|o ops IH]; intros self tr Hinv; [exact Hinv|].
  cbn [Semaphore.run]. unfold OS.bind at 1.
  pose proof (semaphore_step_keeps P os self o tr Hinv) as Hstep.
  destruct (Semaphore.step P os self o tr) as [self1 tr1].
  apply IH. exact Hstep.
Qed.

Lemma semaphore_wait_extends P os self timeout_ms tr :
  exists evs, snd (Semaphore.wait P os self timeout_ms tr) = tr ++ evs.
Proof.
  unfold Semaphore.wait.
  destruct (Semaphore.object self =? nullptr);
    [exists []; cbn; now rewrite app_nil_r|].
  destruct (backend P); [|destruct (timeout_ms =? INFINITE)];
    unfold_os; cbn [snd]; flatten_trace; eexists; reflexivity.
Qed.

Lemma semaphore_increment_extends P os self count tr :
  exists evs, snd (Semaphore.increment P os self count tr) = tr ++ evs.
Proof.
  unfold Semaphore.increment.
  destruct (Semaphore.object self =? nullptr);
    [exists []; cbn; now rewrite app_nil_r|].
  destruct (backend P).
  - unfold_os. cbn [snd]. eexists. reflexivity.
  - destruct (Z.le_gt_cases count 0) as [Hc|Hc].
    + rewrite post_loop_exit by exact Hc. exists []. cbn. now rewrite app_nil_r.
    + rewrite (post_loop_spec os (Z.to_nat count)) by lia.
      cbn [snd]. eexists. reflexivity.
Qed.

Lemma semaphore_close_extends P os self tr :
  exists evs, snd (Semaphore.close P os self tr) = tr ++ evs.
Proof.
  unfold Semaphore.close.
  destruct (Semaphore.object self =? nullptr);
    [exists []; cbn; now rewrite app_nil_r|].
  unfold OS.bind at 1.
  destruct (semaphore_increment_extends P os self Semaphore.max_count tr)
    as [drained Hdrained].
  destruct (Semaphore.increment P os self Semaphore.max_count tr) as [b tr1].
  cbn [snd] in Hdrained. subst tr1.
  destruct (backend P); unfold_os; repeat split_if; cbn [snd]; flatten_trace;
    eexists; reflexivity.
Qed.

(** From the trace [tr0] on, the instance has either a handle or no
    name, unless the last call was an opening of the stored name that
    returned the null handle. *)
Lemma semaphore_step_named P os tr0 self o tr :
  name_has_handle P tr0 self tr ->
  name_has_handle P tr0 (fst (Semaphore.step P os self o tr))
    (snd (Semaphore.step P os self o tr)).
Proof.
  intros (evs & Htr & Hinv). unfold name_has_handle.
  destruct o as [name initial_count | timeout_ms | count |];
    cbn [Semaphore.step].
  - unfold Semaphore.create, sem_open_call in *.
    destruct (empty name) eqn:Hname.
    + cbn. exists evs. split; assumption.
    + destruct (backend P); unfold_os; cbn [fst snd Semaphore.name Semaphore.object];
        subst tr; flatten_trace; eexists; (split; [reflexivity|]);
        intros _ Hnull; rewrite Hnull; exists initial_count, evs; reflexivity.
  - unfold OS.bind.
    destruct (semaphore_wait_extends P os self timeout_ms tr) as [evs1 Hext].
    destruct (Z.eq_dec (Semaphore.object self) nullptr) as [Hnull|Hset].
    + unfold Semaphore.wait. rewrite Hnull. cbn. exists evs. split; assumption.
    + destruct (Semaphore.wait P os self timeout_ms tr) as [b tr1].
      cbn [fst snd OS.ret] in *. subst tr tr1. flatten_trace.
      eexists. split; [reflexivity|]. intros _ Hnull. contradiction.
  - unfold OS.bind.
    destruct (semaphore_increment_extends P os self count tr) as [evs1 Hext].
    destruct (Z.eq_dec (Semaphore.object self) nullptr) as [Hnull|Hset].
    + unfold Semaphore.increment. rewrite Hnull. cbn. exists evs. split; assumption.
    + destruct (Semaphore.increment P os self count tr) as [b tr1].
      cbn [fst snd OS.ret] in *. subst tr tr1. flatten_trace.
      eexists. split; [reflexivity|]. intros _ Hnull. contradiction.
  - destruct (Z.eq_dec (Semaphore.object self) nullptr) as [Hnull|Hset].
    + rewrite semaphore_close_null by exact Hnull. cbn. exists evs. split; assumption.
    + destruct (semaphore_close_extends P os self tr) as [evs1 Hext].
      rewrite Hext, (semaphore_close_set P os self tr Hset). subst tr.
      flatten_trace. eexists. split; [reflexivity|].
      intros Hname. now contradiction Hname.
Qed.

Lemma semaphore_run_named P os tr0 ops : forall self tr,
  name_has_handle P tr0 self tr ->
  name_has_handle P tr0 (fst (Semaphore.run P os self ops tr))
    (snd (Semaphore.run P os self ops tr)).
Proof.
  induction ops as [|o ops IH]; intros self tr Hinv; [exact Hinv|].
  cbn [Semaphore.run]. unfold OS.bind.
  pose proof (semaphore_step_named P os tr0 self o tr Hinv) as Hstep.
  destruct (Semaphore.step P os self o tr) as [self1 tr1].
  apply IH. exact Hstep.
Qed.

Lemma opened_null_last P name initial_count pre :
  existsb opened_null
    (pre ++ [OS.Ev (sem_open_call P name initial_count) nullptr]) = true.
Proof.
  rewrite existsb_app. apply orb_true_iff. right.
  unfold sem_open_call. destruct (backend P); reflexivity.
Qed.

(** C2, as amended.  In every state a default-constructed [Semaphore]
    reaches by any sequence of [create], [wait], [increment] and [close]
    calls, whatever the operating system answers: a handle that is set
    (not null) comes with a non-empty name; and a non-empty name comes
    with a handle that is set, except in the state left by a [create]
    whose opening call returned the null handle, where the name is
    stored alone and that opening of the stored name is the last call
    of the run.  On every run in which no opening call returns the null
    handle, the handle is set if and only if the name is non-empty. *)
Theorem semaphore_handle_iff_name_unless_refused :
  forall (P : Platform) (os : OS.oracle) (ops : list Semaphore.op) tr,
    let r := Semaphore.run P os Semaphore.default ops tr in
    let self := fst r in
    (Semaphore.get_object self <> nullptr -> Semaphore.get_name self <> "") /\
    (Semaphore.get_name self <> "" -> Semaphore.get_object self = nullptr ->
     exists initial_count pre,
       OS.emitted tr (snd r) =
         pre ++ [OS.Ev (sem_open_call P (Semaphore.get_name self) initial_count)
                   nullptr]) /\
    (existsb opened_null (OS.emitted tr (snd r)) = false ->
     (Semaphore.get_object self <> nullptr <-> Semaphore.get_name self <> "")).
Proof.
  intros P os ops tr r self.
  assert (Hkeeps : handle_has_name self).
  { apply semaphore_run_keeps. intros H. now contradiction H. }
  assert (Hnamed : name_has_handle P tr self (snd r)).
  { apply semaphore_run_named. exists []. split; [now rewrite app_nil_r|].
    intros H. now contradiction H. }
  destruct Hnamed as (evs & Htr & Hinv).
  unfold Semaphore.get_object, Semaphore.get_name.
  rewrite Htr, emitted_app.
  split; [exact Hkeeps|]. split; [exact Hinv|].
  intros Hnone. split; [exact Hkeeps|].
  intros Hname Hnull. destruct (Hinv Hname Hnull) as (ic & pre & Hevs).
  rewrite Hevs, opened_null_last in Hnone. discriminate.
Qed.

Lemma semaphore_handle_iff_name_unless_refused_witness :
  (let self := fst (Semaphore.run linux Scenario.os_ok Semaphore.default
                      [Semaphore.Create "/s" 0; Semaphore.Increment 2;
                       Semaphore.Wait 50] []) in
   Semaphore.get_object self <> nullptr <-> Semaphore.get_name self <> "") /\
  (exists initial_count pre,
     [OS.Ev (OS.sem_open "/s" 64 438 0) 0] =
       pre ++ [OS.Ev (sem_open_call linux "/s" initial_count) nullptr]).
Proof.
  split.
  - cbv zeta.
    apply (proj2 (proj2 (semaphore_handle_iff_name_unless_refused linux
                           Scenario.os_ok
                           [Semaphore.Create "/s" 0; Semaphore.Increment 2;
                            Semaphore.Wait 50] []))).
    reflexivity.
  - apply (proj1 (proj2 (semaphore_handle_iff_name_unless_refused linux
                           Scenario.os_refuse [Semaphore.Create "/s" 0] []))).
    + discriminate.
    + reflexivity.
Defined.

(** C2 as stated fails: after a [create] that the operating system
    refuses, the name is non-empty and the handle is null, on either
    backend. *)
Lemma refused_create_sets_name_alone :
  let posix := fst (Semaphore.run linux Scenario.os_refuse Semaphore.default
                      [Semaphore.Create "/s" 0] []) in
  let win := fst (Semaphore.run windows Scenario.os_refuse Semaphore.default
                    [Semaphore.Create "/s" 0] []) in
  posix = Semaphore.mk "/s" nullptr /\
  win = Semaphore.mk "/s" nullptr /\
  ~ (Semaphore.get_object posix <> nullptr <-> Semaphore.get_name posix <> "") /\
  ~ (Semaphore.get_object win <> nullptr <-> Semaphore.get_name win <> "").
Proof.
  cbv zeta. split; [reflexivity|]. split; [reflexivity|].
  split; intros [_ H]; apply H; [discriminate | reflexivity | discriminate | reflexivity].
Qed.

(** ** Idempotence of [close] *)

Lemma shared_memory_create_keeps P os self name size tr :
  unmapped_when_invalid P self ->
  unmapped_when_invalid P (snd (fst (Shared_Memory.create P os self name size tr))).
Proof.
  unfold unmapped_when_invalid. intros Hinv.
  unfold Shared_Memory.create, Shared_Memory.create_map, Shared_Memory.map.
  unfold Shared_Memory.invalid in *.
  destruct (backend P); unfold_os;
    cbn [Shared_Memory.file_mapping Shared_Memory.size Shared_Memory.with_file_mapping];
    repeat split_if;
    cbn [Shared_Memory.address Shared_Memory.with_address Shared_Memory.name
         Shared_Memory.size
         Shared_Memory.file_mapping Shared_Memory.with_file_mapping fst snd];
    eqb_facts; unfold nullptr in *; auto; try congruence.
Qed.






(** ** The deadline of [Semaphore::wait] *)

Lemma wrap_unsigned_small w x : 0 <= x < 2 ^ w -> wrap_unsigned w x = x.
Proof. intros H. unfold wrap_unsigned. apply Z.mod_small, H. Qed.

Lemma wrap_signed_small w x :
  1 <= w -> - 2 ^ (w - 1) <= x < 2 ^ (w - 1) -> wrap_signed w x = x.
Proof.
  intros Hw H. unfold wrap_signed.
  assert (Hpow : 2 ^ w = 2 * 2 ^ (w - 1)).
  { replace w with (Z.succ (w - 1)) at 1 by lia. apply Z.pow_succ_r. lia. }
  rewrite Z.mod_small by lia. lia.
Qed.

Lemma pow2_31_le w : 32 <= w -> 2 ^ 31 <= 2 ^ (w - 1).
Proof. intros H. apply Z.pow_le_mono_r; lia. Qed.

Lemma wait_deadline_no_wrap P now timeout_ms :
  32 <= time_t_bits P -> 32 <= long_bits P ->
  0 <= timeout_ms < INFINITE ->
  0 <= tv_nsec now < 10 ^ 9 ->
  - 2 ^ (time_t_bits P - 1) <= tv_sec now ->
  tv_sec now + timeout_ms / 1000 + 1 < 2 ^ (time_t_bits P - 1) ->
  Semaphore.wait_deadline P now timeout_ms = exact_deadline now timeout_ms.
Proof.
  intros Ht Hl Hms Hns Hlo Hhi.
  change INFINITE with 4294967295 in Hms. change (10 ^ 9) with 1000000000 in Hns.
  pose proof (pow2_31_le _ Ht) as Hpt. pose proof (pow2_31_le _ Hl) as Hpl.
  change (2 ^ 31) with 2147483648 in Hpt, Hpl.
  assert (Hq : 0 <= timeout_ms / 1000 <= 4294967).
  { split; [apply Z.div_pos; lia|].
    enough (timeout_ms / 1000 < 4294968) by lia.
    apply Z.div_lt_upper_bound; lia. }
  pose proof (Z.mod_pos_bound timeout_ms 1000 ltac:(lia)) as Hr.
  unfold Semaphore.wait_deadline, exact_deadline. cbv zeta.
  rewrite (wrap_unsigned_small 32 (timeout_ms / 1000))
    by (change (2 ^ 32) with 4294967296; lia).
  rewrite (wrap_unsigned_small 32 (timeout_ms mod 1000))
    by (change (2 ^ 32) with 4294967296; lia).
  rewrite (wrap_unsigned_small 32 (timeout_ms mod 1000 * 1000000))
    by (change (2 ^ 32) with 4294967296; lia).
  rewrite (wrap_signed_small (time_t_bits P) (tv_sec now + timeout_ms / 1000))
    by lia.
  rewrite (wrap_signed_small (long_bits P)
             (tv_nsec now + timeout_ms mod 1000 * 1000000)) by lia.
  destruct (Z.geb_spec (tv_nsec now + timeout_ms mod 1000 * 1000000) 1000000000).
  - rewrite !wrap_signed_small by lia. reflexivity.
  - reflexivity.
Qed.

Lemma exact_deadline_sum now timeout_ms :
  0 <= timeout_ms ->
  0 <= tv_nsec now < 10 ^ 9 ->
  let d := exact_deadline now timeout_ms in
  tv_sec d * 10 ^ 9 + tv_nsec d =
    tv_sec now * 10 ^ 9 + tv_nsec now + timeout_ms * 10 ^ 6 /\
  0 <= tv_nsec d < 10 ^ 9.
Proof.
  intros Hms Hns. change (10 ^ 9) with 1000000000 in *.
  change (10 ^ 6) with 1000000.
  pose proof (Z.mod_pos_bound timeout_ms 1000 ltac:(lia)) as Hr.
  pose proof (Z.div_mod timeout_ms 1000 ltac:(lia)) as Hdm.
  unfold exact_deadline. cbv zeta.
  destruct (Z.geb_spec (tv_nsec now + timeout_ms mod 1000 * 1000000) 1000000000);
    cbn [tv_sec tv_nsec]; lia.
Qed.

(** C8, as amended.  On the descriptor-style backend, for every finite
    [timeout_ms] and every clock reading with [tv_nsec] in [0, 10^9)
    whose [tv_sec] leaves room for the timeout
    ([tv_sec + timeout_ms / 1000 + 1] still fits [time_t]), [wait] reads
    the clock once and passes to [sem_timedwait] a deadline that is the
    reading plus exactly [timeout_ms] milliseconds, with [tv_nsec] in
    [0, 10^9), and no step of the computation wraps: the deadline is the
    one computed on unbounded integers. *)
Theorem wait_deadline_exact :
  forall (P : Platform) (os : OS.oracle) self timeout_ms tr,
    backend P = Posix ->
    Semaphore.object self <> nullptr ->
    32 <= time_t_bits P -> 32 <= long_bits P ->
    0 <= timeout_ms < INFINITE ->
    let now := OS.clock os tr in
    0 <= tv_nsec now < 10 ^ 9 ->
    - 2 ^ (time_t_bits P - 1) <= tv_sec now ->
    tv_sec now + timeout_ms / 1000 + 1 < 2 ^ (time_t_bits P - 1) ->
    exists deadline r0 r,
      Semaphore.wait P os self timeout_ms tr =
        (r =? 0,
         tr ++ [OS.Ev (OS.clock_gettime (CLOCK_REALTIME P) now) r0;
                OS.Ev (OS.sem_timedwait (Semaphore.object self) deadline) r]) /\
      deadline = exact_deadline now timeout_ms /\
      tv_sec deadline * 10 ^ 9 + tv_nsec deadline =
        tv_sec now * 10 ^ 9 + tv_nsec now + timeout_ms * 10 ^ 6 /\
      0 <= tv_nsec deadline < 10 ^ 9.
Proof.
  intros P os self timeout_ms tr HP Hobj Ht Hl Hms now Hns Hlo Hhi.
  pose proof (wait_deadline_no_wrap P now timeout_ms Ht Hl Hms Hns Hlo Hhi) as Hd.
  pose proof (exact_deadline_sum now timeout_ms ltac:(lia) Hns) as [Hsum Hrange].
  unfold Semaphore.wait.
  destruct (Z.eqb_spec (Semaphore.object self) nullptr); [contradiction|].
  rewrite HP.
  destruct (Z.eqb_spec timeout_ms INFINITE); [lia|].
  unfold_os. fold now. rewrite Hd. rewrite <- app_assoc. cbn [app].
  eexists _, _, _. split; [reflexivity|]. split; [reflexivity|].
  split; assumption.
Qed.

Lemma wait_deadline_exact_witness :
  exists deadline r0 r,
    Semaphore.wait linux Scenario.os_ok (Semaphore.mk "/s" 4096) 1500 [] =
      (r =? 0,
       [OS.Ev (OS.clock_gettime 0 Scenario.epoch) r0;
        OS.Ev (OS.sem_timedwait 4096 deadline) r]) /\
    deadline = exact_deadline Scenario.epoch 1500 /\
    tv_sec deadline * 10 ^ 9 + tv_nsec deadline =
      1700000000 * 10 ^ 9 + 0 + 1500 * 10 ^ 6 /\
    0 <= tv_nsec deadline < 10 ^ 9.
Proof.
  apply (wait_deadline_exact linux Scenario.os_ok (Semaphore.mk "/s" 4096) 1500 []).
  - reflexivity.
  - discriminate.
  - cbn. lia.
  - cbn. lia.
  - split; [lia | reflexivity].
  - cbn. lia.
  - cbn. lia.
  - cbn. lia.
Defined.

(** C8 as stated fails: with the clock within the timeout of the end of
    [time_t], the seconds wrap and the deadline lies in the past.  On a
    target with a 32-bit [time_t] that is the clock at 2038-01-19
    02:13:20 UTC with a timeout of 4,000,000 seconds; with a 64-bit
    [time_t] it is the last second [time_t] can hold. *)
Lemma wait_deadline_wraps :
  (let now := {| tv_sec := 2147480000; tv_nsec := 0 |} in
   let timeout_ms := 4000000000 in
   let d := Semaphore.wait_deadline linux32 now timeout_ms in
   0 <= timeout_ms < INFINITE /\
   0 <= tv_nsec now < 10 ^ 9 /\
   - 2 ^ 31 <= tv_sec now < 2 ^ 31 /\
   Semaphore.wait linux32 (Scenario.os_at now) (Semaphore.mk "/s" 4096) timeout_ms [] =
     (true, [OS.Ev (OS.clock_gettime 0 now) 0; OS.Ev (OS.sem_timedwait 4096 d) 0]) /\
   d = {| tv_sec := -2143487296; tv_nsec := 0 |} /\
   tv_sec d * 10 ^ 9 + tv_nsec d <>
     tv_sec now * 10 ^ 9 + tv_nsec now + timeout_ms * 10 ^ 6) /\
  (let now := {| tv_sec := 2 ^ 63 - 1; tv_nsec := 0 |} in
   let timeout_ms := 1000 in
   let d := Semaphore.wait_deadline linux now timeout_ms in
   0 <= timeout_ms < INFINITE /\
   0 <= tv_nsec now < 10 ^ 9 /\
   - 2 ^ 63 <= tv_sec now < 2 ^ 63 /\
   d = {| tv_sec := - 2 ^ 63; tv_nsec := 0 |} /\
   tv_sec d * 10 ^ 9 + tv_nsec d <>
     tv_sec now * 10 ^ 9 + tv_nsec now + timeout_ms * 10 ^ 6).
Proof.
  cbv zeta. repeat split; try reflexivity; try discriminate.
Qed.

(** * Further properties *)

Ltac shm_fields :=
  cbn [Shared_Memory.address Shared_Memory.with_address Shared_Memory.name
       Shared_Memory.size Shared_Memory.file_mapping
       Shared_Memory.with_file_mapping Shared_Memory.get_name
       Shared_Memory.get_size Shared_Memory.get_address
       Shared_Memory.get_file_mapping fst snd] in *.

Ltac run_create H :=
  unfold Shared_Memory.create, Shared_Memory.create_map, Shared_Memory.map in H;
  unfold map_call, map_failure, release_call, open_call, unmap_call,
    Shared_Memory.invalid in *;
  destruct (backend _); unfold_os;
  cbn [Shared_Memory.file_mapping Shared_Memory.size
       Shared_Memory.with_file_mapping] in H;
  repeat split_if; repeat split_pair; subst; shm_fields;
  try discriminate; flatten_trace.

(** ** A [create] that succeeds *)

Lemma shm_create_true :
  forall (P : Platform) (os : OS.oracle) self name size tr self' tr',
    Shared_Memory.create P os self name size tr = ((true, self'), tr') ->
    name <> "" /\ size <> 0%N /\
    Shared_Memory.get_name self' = name /\
    Shared_Memory.get_size self' = size /\
    Shared_Memory.get_address self' <> nullptr /\
    Shared_Memory.get_file_mapping self' <> Shared_Memory.invalid P /\
    exists pre,
      tr' = tr ++ pre ++
        [OS.Ev (map_call P (Shared_Memory.file_mapping self') size)
           (Shared_Memory.address self')].
Proof.
  intros P os self name size tr self' tr' Hcreate.
  run_create Hcreate; eqb_facts; unfold nullptr in *; try congruence.
  all: repeat (split; [solve [auto | congruence]|]).
  - eexists [_]. reflexivity.
  - eexists [_; _]. reflexivity.
Qed.

(** X1.  When [Shared_Memory::create] returns [true], on either
    backend and from any state, the arguments were valid, the getters
    report the requested name and size, a non-null address and a valid
    handle, and the last call made was the mapping of that handle with
    that size, which returned that address. *)
Theorem shared_memory_create_success :
  forall (P : Platform) (os : OS.oracle) self name size tr self' tr',
    Shared_Memory.create P os self name size tr = ((true, self'), tr') ->
    name <> "" /\ size <> 0%N /\
    Shared_Memory.get_name self' = name /\
    Shared_Memory.get_size self' = size /\
    Shared_Memory.get_address self' <> nullptr /\
    Shared_Memory.get_file_mapping self' <> Shared_Memory.invalid P /\
    exists pre,
      tr' = tr ++ pre ++
        [OS.Ev (map_call P (Shared_Memory.file_mapping self') size)
           (Shared_Memory.address self')].
Proof. exact shm_create_true. Qed.

Lemma shared_memory_create_success_witness :
  Shared_Memory.get_address (Shared_Memory.mk "/m" 16 8192 3) <> nullptr /\
  Shared_Memory.get_file_mapping (Shared_Memory.mk "/m" 16 8192 3) <>
    Shared_Memory.invalid linux.
Proof.
  pose proof (shared_memory_create_success linux Scenario.os_ok
                (Shared_Memory.default linux) "/m" 16%N []
                (Shared_Memory.mk "/m" 16 8192 3)
                [OS.Ev (OS.shm_open "/m" 66 438) 3; OS.Ev (OS.ftruncate 3 16) 0;
                 OS.Ev (OS.mmap 0 16 3 1 3 0) 8192] eq_refl)
    as (_ & _ & _ & _ & Ha & Hf & _).
  split; assumption.
Defined.

(** ** Teardown of [Shared_Memory] *)

Lemma shm_close_events :
  forall (P : Platform) (os : OS.oracle) self tr,
    Shared_Memory.file_mapping self <> Shared_Memory.invalid P ->
    exists unmapped r unlinked,
      Shared_Memory.close P os self tr =
        (Shared_Memory.default P,
         tr ++ unmapped
            ++ [OS.Ev (release_call P (Shared_Memory.file_mapping self)) r]
            ++ unlinked) /\
      (Shared_Memory.address self = nullptr -> unmapped = []) /\
      (Shared_Memory.address self <> nullptr ->
       exists r1,
         unmapped = [OS.Ev (unmap_call P (Shared_Memory.address self)
                              (Shared_Memory.size self)) r1]) /\
      match backend P with
      | Win32 => unlinked = []
      | Posix =>
          (Shared_Memory.name self = "" -> unlinked = []) /\
          (Shared_Memory.name self <> "" ->
           exists r2, unlinked = [OS.Ev (OS.shm_unlink (Shared_Memory.name self)) r2])
      end.
Proof.
  intros P os self tr Hfm. unfold Shared_Memory.close.
  destruct (Z.eqb_spec (Shared_Memory.file_mapping self) (Shared_Memory.invalid P));
    [contradiction|].
  unfold release_call, unmap_call, Shared_Memory.default.
  destruct (backend P); unfold_os; repeat split_if; eqb_facts; flatten_trace.
  all: first
    [ solve [eexists [], _, []; repeat split; try reflexivity; intros;
             try congruence; eexists; reflexivity]
    | solve [eexists [_], _, []; repeat split; try reflexivity; intros;
             try congruence; eexists; reflexivity]
    | solve [eexists [], _, [_]; repeat split; try reflexivity; intros;
             try congruence; eexists; reflexivity]
    | solve [eexists [_], _, [_]; repeat split; try reflexivity; intros;
             try congruence; eexists; reflexivity] ].
Qed.

(** X2.  [Shared_Memory::close] on an instance whose handle is valid
    leaves the default-constructed instance, whatever the operating
    system answers, after making these calls in this order: the removal
    of the mapping at the stored address (with the stored size) when the
    address is not null, the release of the stored handle, and, on the
    descriptor-style backend when the stored name is not empty, the
    [shm_unlink] of that name. *)
Theorem shared_memory_close_teardown :
  forall (P : Platform) (os : OS.oracle) self tr,
    Shared_Memory.file_mapping self <> Shared_Memory.invalid P ->
    exists unmapped r unlinked,
      Shared_Memory.close P os self tr =
        (Shared_Memory.default P,
         tr ++ unmapped
            ++ [OS.Ev (release_call P (Shared_Memory.file_mapping self)) r]
            ++ unlinked) /\
      (Shared_Memory.address self = nullptr -> unmapped = []) /\
      (Shared_Memory.address self <> nullptr ->
       exists r1,
         unmapped = [OS.Ev (unmap_call P (Shared_Memory.address self)
                              (Shared_Memory.size self)) r1]) /\
      match backend P with
      | Win32 => unlinked = []
      | Posix =>
          (Shared_Memory.name self = "" -> unlinked = []) /\
          (Shared_Memory.name self <> "" ->
           exists r2, unlinked = [OS.Ev (OS.shm_unlink (Shared_Memory.name self)) r2])
      end.
Proof. exact shm_close_events. Qed.

Lemma shared_memory_close_teardown_witness :
  exists r1 r r2,
    Shared_Memory.close linux Scenario.os_refuse
      (Shared_Memory.mk "/m" 16 8192 3) [] =
      (Shared_Memory.default linux,
       [OS.Ev (OS.munmap 8192 16) r1; OS.Ev (OS.close 3) r;
        OS.Ev (OS.shm_unlink "/m") r2]).
Proof.
  destruct (shared_memory_close_teardown linux Scenario.os_refuse
              (Shared_Memory.mk "/m" 16 8192 3) [] ltac:(discriminate))
    as (unmapped & r & unlinked & Hclose & _ & Hmap & _ & Hname).
  destruct (Hmap ltac:(discriminate)) as [r1 ->].
  destruct (Hname ltac:(discriminate)) as [r2 ->].
  exists r1, r, r2. exact Hclose.
Defined.

(** ** Construction followed by destruction *)

Lemma shm_create_mapped P os self name size tr ok self' tr' :
  Shared_Memory.create P os self name size tr = ((ok, self'), tr') ->
  Shared_Memory.address self = nullptr ->
  Shared_Memory.address self' <> nullptr ->
  ok = true.
Proof.
  intros Hcreate Hnull Hmapped.
  run_create Hcreate; eqb_facts; unfold nullptr in *; try congruence.
  all: match goal with H : _ <> 0 |- negb (?x =? 0) = true =>
         destruct (Z.eqb_spec x 0); [contradiction | reflexivity] end.
Qed.

(** X3.  The constructor [Shared_Memory(name, size)] followed by the
    destructor: when the constructed instance reports a non-null
    address, the destructor removes exactly the mapping the constructor
    obtained, with the size it was mapped with, then releases the handle
    that was mapped, then (descriptor-style backend) unlinks the name
    that was opened, and leaves the default-constructed instance. *)
Theorem shared_memory_construct_destroy :
  forall (P : Platform) (os : OS.oracle) name size tr self tr1,
    Shared_Memory.construct P os name size tr = (self, tr1) ->
    Shared_Memory.get_address self <> nullptr ->
    exists pre r1 r2 unlinked,
      tr1 = tr ++ pre ++
        [OS.Ev (map_call P (Shared_Memory.file_mapping self) size)
           (Shared_Memory.address self)] /\
      Shared_Memory.destroy P os self tr1 =
        (Shared_Memory.default P,
         tr1 ++ [OS.Ev (unmap_call P (Shared_Memory.address self) size) r1;
                 OS.Ev (release_call P (Shared_Memory.file_mapping self)) r2]
             ++ unlinked) /\
      match backend P with
      | Win32 => unlinked = []
      | Posix => exists r3, unlinked = [OS.Ev (OS.shm_unlink name) r3]
      end.
Proof.
  intros P os name size tr self tr1 Hcons Hmapped.
  unfold Shared_Memory.construct, OS.bind in Hcons.
  destruct (Shared_Memory.create P os (Shared_Memory.default P) name size tr)
    as [[ok s] t] eqn:Hcreate.
  unfold OS.ret in Hcons. apply pair_equal_spec in Hcons as [Hs Ht].
  cbn [snd] in Hs. subst s t.
  assert (ok = true) as -> by (eapply shm_create_mapped; eauto).
  destruct (shm_create_true _ _ _ _ _ _ _ _ Hcreate)
    as (Hname & Hsize & Hn & Hs & Ha & Hf & pre & Htr).
  destruct (shm_close_events P os self tr1 Hf)
    as (unmapped & r & unlinked & Hclose & _ & Hmap & Hunl).
  destruct (Hmap Ha) as [r1 ->].
  unfold Shared_Memory.get_name, Shared_Memory.get_size in *.
  rewrite Hs in Hclose.
  exists pre, r1, r, unlinked. split; [exact Htr|].
  split; [exact Hclose|].
  destruct (backend P); [exact Hunl|].
  destruct Hunl as [_ Hunl]. rewrite Hn in Hunl. exact (Hunl Hname).
Qed.

Lemma shared_memory_construct_destroy_witness :
  exists r1 r2 r3,
    Shared_Memory.destroy linux Scenario.os_ok (Shared_Memory.mk "/m" 16 8192 3)
      [OS.Ev (OS.shm_open "/m" 66 438) 3; OS.Ev (OS.ftruncate 3 16) 0;
       OS.Ev (OS.mmap 0 16 3 1 3 0) 8192] =
    (Shared_Memory.default linux,
     [OS.Ev (OS.shm_open "/m" 66 438) 3; OS.Ev (OS.ftruncate 3 16) 0;
      OS.Ev (OS.mmap 0 16 3 1 3 0) 8192;
      OS.Ev (OS.munmap 8192 16) r1; OS.Ev (OS.close 3) r2;
      OS.Ev (OS.shm_unlink "/m") r3]).
Proof.
  destruct (shared_memory_construct_destroy linux Scenario.os_ok "/m" 16%N []
              (Shared_Memory.mk "/m" 16 8192 3)
              [OS.Ev (OS.shm_open "/m" 66 438) 3; OS.Ev (OS.ftruncate 3 16) 0;
               OS.Ev (OS.mmap 0 16 3 1 3 0) 8192]
              eq_refl ltac:(discriminate))
    as (pre & r1 & r2 & unlinked & _ & Hdestroy & r3 & ->).
  exists r1, r2, r3. exact Hdestroy.
Defined.

Lemma sem_close_events P os self tr :
  Semaphore.object self <> nullptr ->
  Semaphore.name self <> "" ->
  exists r1 r2,
    Semaphore.close P os self tr =
      (Semaphore.default,
       tr ++ sem_drain P os (Semaphore.object self) tr
          ++ sem_release P (Semaphore.object self) (Semaphore.name self) r1 r2).
Proof.
  intros Hobj Hname. unfold Semaphore.close, sem_drain, sem_release.
  destruct (Z.eqb_spec (Semaphore.object self) nullptr) as [|_]; [contradiction|].
  destruct (backend P) eqn:HP.
  - unfold Semaphore.increment.
    destruct (Z.eqb_spec (Semaphore.object self) nullptr) as [|_]; [contradiction|].
    rewrite HP. unfold_os. flatten_trace.
    eexists _, 0. reflexivity.
  - unfold OS.bind at 1.
    rewrite (increment_posix P os self Semaphore.max_count tr HP Hobj)
      by (unfold Semaphore.max_count; lia).
    remember (Z.to_nat Semaphore.max_count) as n eqn:Hn. clear Hn.
    unfold_os. rewrite (empty_false _ Hname). cbn [negb].
    flatten_trace. eexists _, _. reflexivity.
Qed.

(** X4.  The constructor [Semaphore(name, initial_count)] followed by
    the destructor: when the constructed instance reports a non-null
    handle, the constructor made one call, the opening of [name], whose
    result is that handle; the destructor then drains that handle with
    [increment(max_count)], releases it, (descriptor-style backend)
    unlinks the name that was opened, and leaves the default-constructed
    instance, whatever the operating system answers. *)
Theorem semaphore_construct_destroy :
  forall (P : Platform) (os : OS.oracle) name initial_count tr self tr1,
    Semaphore.construct P os name initial_count tr = (self, tr1) ->
    Semaphore.get_object self <> nullptr ->
    Semaphore.get_name self = name /\
    tr1 = tr ++ [OS.Ev (sem_open_call P name initial_count) (Semaphore.object self)] /\
    exists r1 r2,
      Semaphore.destroy P os self tr1 =
        (Semaphore.default,
         tr1 ++ sem_drain P os (Semaphore.object self) tr1
             ++ sem_release P (Semaphore.object self) name r1 r2).
Proof.
  intros P os name initial_count tr self tr1 Hcons Hobj.
  unfold Semaphore.get_object, Semaphore.get_name in *.
  assert (Hfacts : name <> "" /\ Semaphore.name self = name /\
            tr1 = tr ++ [OS.Ev (sem_open_call P name initial_count)
                           (Semaphore.object self)]).
  { unfold Semaphore.construct, Semaphore.create, sem_open_call in *.
    destruct (empty name) eqn:Hname.
    - unfold_os. split_pair. subst. now contradiction Hobj.
    - apply empty_false_inv in Hname.
      destruct (backend P); unfold_os; split_pair; subst; auto. }
  destruct Hfacts as (Hname & Hn & Htr).
  split; [exact Hn|]. split; [exact Htr|].
  unfold Semaphore.destroy. rewrite <- Hn in Hname |- *.
  apply sem_close_events; assumption.
Qed.

Lemma semaphore_construct_destroy_witness :
  exists r1 r2,
    fst (Semaphore.destroy linux Scenario.os_ok (Semaphore.mk "/s" 4096)
           [OS.Ev (OS.sem_open "/s" 64 438 2) 4096]) = Semaphore.default /\
    sem_release linux 4096 "/s" r1 r2 =
      [OS.Ev (OS.sem_close 4096) r1; OS.Ev (OS.sem_unlink "/s") r2].
Proof.
  destruct (semaphore_construct_destroy linux Scenario.os_ok "/s" 2 []
              (Semaphore.mk "/s" 4096) [OS.Ev (OS.sem_open "/s" 64 438 2) 4096]
              eq_refl ltac:(discriminate))
    as (_ & _ & r1 & r2 & Hdestroy).
  exists r1, r2. split; [|reflexivity].
  rewrite Hdestroy. reflexivity.
Defined.

(** ** Failure paths of [Shared_Memory::create] *)

(** X5.  When [ftruncate] fails during [create] (descriptor-style
    backend), [create] returns [false] after exactly four calls:
    [shm_open], the failing [ftruncate], the [close] of the new
    descriptor and the [shm_unlink] of the name.  The handle and the
    address of the instance are as before the call; its name and size
    are the arguments. *)
Theorem resize_failure_removes_object :
  forall (P : Platform) (os : OS.oracle) self name size tr ok self' tr',
    Shared_Memory.create P os self name size tr = ((ok, self'), tr') ->
    (exists fd, In (OS.Ev (OS.ftruncate fd size) (-1)) (OS.emitted tr tr')) ->
    ok = false /\
    Shared_Memory.file_mapping self' = Shared_Memory.file_mapping self /\
    Shared_Memory.address self' = Shared_Memory.address self /\
    Shared_Memory.name self' = name /\
    Shared_Memory.size self' = size /\
    exists fd r1 r2,
      tr' = tr ++ [OS.Ev (OS.shm_open name (Z.lor (O_CREAT P) (O_RDWR P)) 438) fd;
                   OS.Ev (OS.ftruncate fd size) (-1);
                   OS.Ev (OS.close fd) r1;
                   OS.Ev (OS.shm_unlink name) r2].
Proof.
  intros P os self name size tr ok self' tr' Hcreate [fd Hin].
  run_create Hcreate; rewrite ?emitted_same, ?emitted_app in Hin; in_cases Hin.
  all: eqb_facts; injection Hin as Hfd Hr; subst fd; try congruence.
  repeat (split; [reflexivity|]).
  eexists _, _, _. rewrite Hr. reflexivity.
Qed.

Lemma resize_failure_removes_object_witness :
  exists fd r1 r2,
    [OS.Ev (OS.shm_open "/m" 66 438) 3; OS.Ev (OS.ftruncate 3 16) (-1);
     OS.Ev (OS.close 3) 0; OS.Ev (OS.shm_unlink "/m") 0] =
    [] ++ [OS.Ev (OS.shm_open "/m" (Z.lor (O_CREAT linux) (O_RDWR linux)) 438) fd;
           OS.Ev (OS.ftruncate fd 16) (-1);
           OS.Ev (OS.close fd) r1;
           OS.Ev (OS.shm_unlink "/m") r2].
Proof.
  refine (proj2 (proj2 (proj2 (proj2 (proj2
    (resize_failure_removes_object linux Scenario.os_resize_fails
       (Shared_Memory.default linux) "/m" 16%N [] false
       (Shared_Memory.mk "/m" 16 nullptr (-1))
       [OS.Ev (OS.shm_open "/m" 66 438) 3; OS.Ev (OS.ftruncate 3 16) (-1);
        OS.Ev (OS.close 3) 0; OS.Ev (OS.shm_unlink "/m") 0]
       eq_refl _)))))).
  exists 3. right. left. reflexivity.
Defined.

(** X6.  When the mapping call fails during [create], no call of that
    [create] is a [shm_unlink], and any number of [close] calls on the
    instance it leaves make no call at all: on the descriptor-style
    backend the name stays in the namespace of the operating system. *)
Theorem map_failure_leaves_name_linked :
  forall (P : Platform) (os : OS.oracle) self name size tr ok self' tr',
    Shared_Memory.create P os self name size tr = ((ok, self'), tr') ->
    (exists h, In (OS.Ev (map_call P h size) (map_failure P)) (OS.emitted tr tr')) ->
    existsb is_shm_unlink (OS.emitted tr tr') = false /\
    forall n,
      Shared_Memory.run P os self' (repeat Shared_Memory.Close n) tr' = (self', tr').
Proof.
  intros P os self name size tr ok self' tr' Hcreate [h Hin].
  assert (H : existsb is_shm_unlink (OS.emitted tr tr') = false /\
              Shared_Memory.file_mapping self' = Shared_Memory.invalid P).
  { run_create Hcreate; rewrite ?emitted_same, ?emitted_app in *; in_cases Hin.
    all: eqb_facts; injection Hin as Hh Hr; subst h; try congruence.
    all: split; reflexivity. }
  destruct H as [Hunl Hfm]. split; [exact Hunl|].
  intros n. apply shared_memory_close_repeat. exact Hfm.
Qed.

Lemma map_failure_leaves_name_linked_witness :
  Shared_Memory.run linux Scenario.os_map_fails
    (Shared_Memory.mk "/m" 16 nullptr (-1)) (repeat Shared_Memory.Close 2)
    [OS.Ev (OS.shm_open "/m" 66 438) 3; OS.Ev (OS.ftruncate 3 16) 0;
     OS.Ev (OS.mmap 0 16 3 1 3 0) (-1); OS.Ev (OS.close 3) 0] =
  (Shared_Memory.mk "/m" 16 nullptr (-1),
   [OS.Ev (OS.shm_open "/m" 66 438) 3; OS.Ev (OS.ftruncate 3 16) 0;
    OS.Ev (OS.mmap 0 16 3 1 3 0) (-1); OS.Ev (OS.close 3) 0]).
Proof.
  refine (proj2
    (map_failure_leaves_name_linked linux Scenario.os_map_fails
       (Shared_Memory.default linux) "/m" 16%N [] false
       (Shared_Memory.mk "/m" 16 nullptr (-1))
       [OS.Ev (OS.shm_open "/m" 66 438) 3; OS.Ev (OS.ftruncate 3 16) 0;
        OS.Ev (OS.mmap 0 16 3 1 3 0) (-1); OS.Ev (OS.close 3) 0]
       eq_refl _) 2%nat).
  exists 3. right. right. left. reflexivity.
Defined.

(** ** A [Semaphore] without a handle *)

Lemma increment_nonpositive P os self count tr :
  backend P = Posix ->
  Semaphore.object self <> nullptr ->
  count <= 0 ->
  Semaphore.increment P os self count tr = (true, tr).
Proof.
  intros HP Hobj Hc. unfold Semaphore.increment.
  destruct (Z.eqb_spec (Semaphore.object self) nullptr); [contradiction|].
  rewrite HP. apply post_loop_exit. exact Hc.
Qed.

Lemma sem_wait_null P os self timeout_ms tr :
  Semaphore.object self = nullptr ->
  Semaphore.wait P os self timeout_ms tr = (false, tr).
Proof. intros H. unfold Semaphore.wait. rewrite H. reflexivity. Qed.

Lemma sem_increment_null P os self count tr :
  Semaphore.object self = nullptr ->
  Semaphore.increment P os self count tr = (false, tr).
Proof. intros H. unfold Semaphore.increment. rewrite H. reflexivity. Qed.

Lemma sem_run_null P os ops : forall self tr,
  Semaphore.object self = nullptr ->
  forallb (fun o => negb (is_create o)) ops = true ->
  Semaphore.run P os self ops tr = (self, tr).
Proof.
  induction ops as [|o ops IH]; intros self tr Hnull Hops; [reflexivity|].
  cbn [forallb] in Hops. apply andb_true_iff in Hops as [Ho Hops].
  cbn [Semaphore.run]. unfold OS.bind at 1.
  destruct o as [name initial_count | timeout_ms | count |];
    cbn [Semaphore.step is_create negb] in *; [discriminate| | |].
  - unfold OS.bind. rewrite sem_wait_null by exact Hnull.
    unfold OS.ret. apply IH; assumption.
  - unfold OS.bind. rewrite sem_increment_null by exact Hnull.
    unfold OS.ret. apply IH; assumption.
  - rewrite semaphore_close_null by exact Hnull. apply IH; assumption.
Qed.

(** X7.  On a [Semaphore] whose handle is null (never created, closed,
    or left by a refused [create]), [wait] and [increment] return
    [false] and any sequence of [wait], [increment] and [close] calls
    leaves the instance as it is, all without a single call to the
    operating system. *)
Theorem semaphore_null_handle_inert :
  forall (P : Platform) (os : OS.oracle) self ops tr,
    Semaphore.object self = nullptr ->
    forallb (fun o => negb (is_create o)) ops = true ->
    (forall timeout_ms, Semaphore.wait P os self timeout_ms tr = (false, tr)) /\
    (forall count, Semaphore.increment P os self count tr = (false, tr)) /\
    Semaphore.run P os self ops tr = (self, tr).
Proof.
  intros P os self ops tr Hnull Hops. split; [|split].
  - intros. apply sem_wait_null, Hnull.
  - intros. apply sem_increment_null, Hnull.
  - apply sem_run_null; assumption.
Qed.

Lemma semaphore_null_handle_inert_witness :
  Semaphore.run linux Scenario.os_ok Semaphore.default
    [Semaphore.Wait 50; Semaphore.Increment 3; Semaphore.Close; Semaphore.Wait INFINITE]
    [] = (Semaphore.default, []).
Proof.
  apply (semaphore_null_handle_inert linux Scenario.os_ok Semaphore.default
           [Semaphore.Wait 50; Semaphore.Increment 3; Semaphore.Close;
            Semaphore.Wait INFINITE] []);
    reflexivity.
Defined.

(** X8.  After [close], from any state and whatever the operating
    system answered, [wait] and [increment] return [false] without
    calling the operating system. *)
Theorem semaphore_use_after_close :
  forall (P : Platform) (os : OS.oracle) self tr timeout_ms count,
    let r := Semaphore.close P os self tr in
    Semaphore.wait P os (fst r) timeout_ms (snd r) = (false, snd r) /\
    Semaphore.increment P os (fst r) count (snd r) = (false, snd r).
Proof.
  intros P os self tr timeout_ms count r.
  assert (Hnull : Semaphore.object (fst r) = nullptr).
  { unfold r. destruct (Z.eq_dec (Semaphore.object self) nullptr) as [H|H].
    - rewrite (semaphore_close_null P os self tr H). exact H.
    - rewrite (semaphore_close_set P os self tr H). reflexivity. }
  split; [apply sem_wait_null | apply sem_increment_null]; exact Hnull.
Qed.

(** ** A refused [Semaphore::create] *)

Lemma sem_create_refused P os self name initial_count tr self' tr' :
  name <> "" ->
  Semaphore.create P os self name initial_count tr = ((false, self'), tr') ->
  Semaphore.name self' = name /\ Semaphore.object self' = sem_failure P.
Proof.
  intros Hname Hcreate. unfold Semaphore.create, sem_failure in *.
  rewrite (empty_false _ Hname) in Hcreate.
  destruct (backend P); unfold_os; repeat split_pair; subst;
    cbn [Semaphore.name Semaphore.object]; eqb_facts; auto.
Qed.

(** X9.  Where the failure value of the opening call is the null
    pointer (handle-style backend, or [SEM_FAILED] null), the instance a
    refused [create] leaves has a null handle and the requested name,
    and any sequence of [wait], [increment] and [close] calls on it
    makes no call: the name is never unlinked through this instance. *)
Theorem refused_create_inert :
  forall (P : Platform) (os : OS.oracle) self name initial_count tr self' tr' ops,
    Semaphore.create P os self name initial_count tr = ((false, self'), tr') ->
    name <> "" ->
    sem_failure P = nullptr ->
    forallb (fun o => negb (is_create o)) ops = true ->
    Semaphore.get_object self' = nullptr /\
    Semaphore.get_name self' = name /\
    Semaphore.run P os self' ops tr' = (self', tr').
Proof.
  intros P os self name initial_count tr self' tr' ops Hcreate Hname Hfail Hops.
  destruct (sem_create_refused _ _ _ _ _ _ _ _ Hname Hcreate) as [Hn Ho].
  unfold Semaphore.get_object, Semaphore.get_name.
  rewrite Hfail in Ho. repeat split; try assumption.
  apply sem_run_null; assumption.
Qed.

Lemma refused_create_inert_witness :
  Semaphore.run windows Scenario.os_refuse (Semaphore.mk "/s" nullptr)
    [Semaphore.Increment 1; Semaphore.Close]
    [OS.Ev (OS.CreateSemaphoreA 0 0 2147483647 "/s") 0] =
  (Semaphore.mk "/s" nullptr, [OS.Ev (OS.CreateSemaphoreA 0 0 2147483647 "/s") 0]).
Proof.
  refine (proj2 (proj2
    (refused_create_inert windows Scenario.os_refuse Semaphore.default "/s" 0 []
       (Semaphore.mk "/s" nullptr)
       [OS.Ev (OS.CreateSemaphoreA 0 0 2147483647 "/s") 0]
       [Semaphore.Increment 1; Semaphore.Close] eq_refl _ eq_refl eq_refl))).
  discriminate.
Defined.

(** X10.  On the descriptor-style backend with a [SEM_FAILED] that is
    not the null pointer, the instance a refused [create] leaves holds
    [SEM_FAILED] as its handle, and [close] treats it as open: it makes
    [max_count] [sem_post] calls and a [sem_close] on [SEM_FAILED],
    unlinks the requested name, and leaves the default-constructed
    instance. *)
Theorem refused_create_closes_failure_handle :
  forall (P : Platform) (os : OS.oracle) self name initial_count tr self' tr',
    backend P = Posix ->
    SEM_FAILED P <> nullptr ->
    name <> "" ->
    Semaphore.create P os self name initial_count tr = ((false, self'), tr') ->
    Semaphore.get_object self' = SEM_FAILED P /\
    exists r1 r2,
      Semaphore.close P os self' tr' =
        (Semaphore.default,
         tr' ++ posted (SEM_FAILED P)
                  (post_results os (SEM_FAILED P) tr' (Z.to_nat Semaphore.max_count))
             ++ [OS.Ev (OS.sem_close (SEM_FAILED P)) r1;
                 OS.Ev (OS.sem_unlink name) r2]).
Proof.
  intros P os self name initial_count tr self' tr' HP Hfailed Hname Hcreate.
  destruct (sem_create_refused _ _ _ _ _ _ _ _ Hname Hcreate) as [Hn Ho].
  unfold sem_failure in Ho. rewrite HP in Ho.
  split; [exact Ho|].
  destruct (sem_close_events P os self' tr') as (r1 & r2 & Hclose).
  - rewrite Ho. exact Hfailed.
  - rewrite Hn. exact Hname.
  - unfold sem_drain, sem_release in Hclose. rewrite HP, Ho, Hn in Hclose.
    exists r1, r2. exact Hclose.
Qed.

Lemma refused_create_closes_failure_handle_witness :
  exists r1 r2,
    Semaphore.close darwin (Scenario.os_sem_refused darwin) (Semaphore.mk "/s" (-1))
      [OS.Ev (OS.sem_open "/s" 512 438 0) (-1)] =
    (Semaphore.default,
     [OS.Ev (OS.sem_open "/s" 512 438 0) (-1)]
       ++ posted (-1)
            (post_results (Scenario.os_sem_refused darwin) (-1)
               [OS.Ev (OS.sem_open "/s" 512 438 0) (-1)]
               (Z.to_nat Semaphore.max_count))
       ++ [OS.Ev (OS.sem_close (-1)) r1; OS.Ev (OS.sem_unlink "/s") r2]).
Proof.
  refine (proj2
    (refused_create_closes_failure_handle darwin (Scenario.os_sem_refused darwin)
       Semaphore.default "/s" 0 [] (Semaphore.mk "/s" (-1))
       [OS.Ev (OS.sem_open "/s" 512 438 0) (-1)] eq_refl _ _ eq_refl));
    discriminate.
Defined.

(** ** [create] on an instance that already holds a handle *)

(** X11.  A [create] that gets past its argument checks opens the
    object first, and every further call it makes acts on the object it
    has just opened (resize, map or release of the new handle, unlink of
    the new name): it never releases or unmaps what the instance held
    before the call.  For [Semaphore] the opening call is the only call
    and its result becomes the handle. *)
Theorem create_acts_on_new_object_only :
  forall (P : Platform) (os : OS.oracle),
    (forall self name initial_count tr,
        name <> "" ->
        exists h,
          Semaphore.create P os self name initial_count tr =
            ((negb (h =? sem_failure P), Semaphore.mk name h),
             tr ++ [OS.Ev (sem_open_call P name initial_count) h])) /\
    (forall self name size tr ok self' tr',
        Shared_Memory.create P os self name size tr = ((ok, self'), tr') ->
        name <> "" -> size <> 0%N ->
        exists h rest,
          tr' = tr ++ OS.Ev (open_call P name size) h :: rest /\
          Forall (fun e => acts_on_new P h name size (OS.ev_call e)) rest).
Proof.
  intros P os. split.
  - intros self name initial_count tr Hname.
    unfold Semaphore.create, sem_failure, sem_open_call.
    rewrite (empty_false _ Hname).
    destruct (backend P); unfold_os; eexists; reflexivity.
  - intros self name size tr ok self' tr' Hcreate Hname Hsize.
    unfold acts_on_new.
    run_create Hcreate; eqb_facts; try congruence.
    all: eexists _, _; split; [reflexivity|];
      repeat (apply Forall_cons || apply Forall_nil);
      cbn [OS.ev_call]; auto 6.
Qed.

Lemma create_acts_on_new_object_only_witness :
  (exists h,
     Semaphore.create linux Scenario.os_ok (Semaphore.mk "/old" 77) "/s" 0 [] =
       ((negb (h =? sem_failure linux), Semaphore.mk "/s" h),
        [OS.Ev (sem_open_call linux "/s" 0) h])) /\
  (exists h rest,
     [OS.Ev (OS.shm_open "/m" 66 438) 3; OS.Ev (OS.ftruncate 3 16) 0;
      OS.Ev (OS.mmap 0 16 3 1 3 0) 8192] =
     [] ++ OS.Ev (open_call linux "/m" 16) h :: rest /\
     Forall (fun e => acts_on_new linux h "/m" 16 (OS.ev_call e)) rest).
Proof.
  pose proof (create_acts_on_new_object_only linux Scenario.os_ok) as [Hsem Hshm].
  split.
  - apply (Hsem (Semaphore.mk "/old" 77) "/s" 0 []). discriminate.
  - apply (Hshm (Shared_Memory.mk "/old" 8 4096 7) "/m" 16%N [] true
             (Shared_Memory.mk "/m" 16 8192 3)
             [OS.Ev (OS.shm_open "/m" 66 438) 3; OS.Ev (OS.ftruncate 3 16) 0;
              OS.Ev (OS.mmap 0 16 3 1 3 0) 8192] eq_refl);
      discriminate.
Defined.

(** X12.  On the descriptor-style backend, a [create] that [shm_open]
    refuses, made on an instance that holds a mapping, followed by
    [close]: [close] unmaps the held address with the size of the
    refused [create], closes the held descriptor and unlinks the name of
    the refused [create], not the size and name the instance was opened
    with. *)
Theorem refused_recreate_then_close :
  forall (P : Platform) (os : OS.oracle) self name size tr,
    backend P = Posix ->
    Shared_Memory.file_mapping self <> Shared_Memory.invalid P ->
    Shared_Memory.address self <> nullptr ->
    name <> "" -> size <> 0%N ->
    OS.answer os tr (open_call P name size) = -1 ->
    exists r1 r2 r3,
      Shared_Memory.run P os self
        [Shared_Memory.Create name size; Shared_Memory.Close] tr =
      (Shared_Memory.default P,
       tr ++ [OS.Ev (open_call P name size) (-1);
              OS.Ev (OS.munmap (Shared_Memory.address self) size) r1;
              OS.Ev (OS.close (Shared_Memory.file_mapping self)) r2;
              OS.Ev (OS.shm_unlink name) r3]).
Proof.
  intros P os self name size tr HP Hfm Haddr Hname Hsize Hans.
  cbn [Shared_Memory.run Shared_Memory.step].
  unfold Shared_Memory.create, Shared_Memory.close, Shared_Memory.default,
    Shared_Memory.invalid, open_call in *.
  rewrite HP in *. rewrite (empty_false _ Hname).
  destruct (N.eqb_spec size 0); [contradiction|].
  unfold_os. rewrite Hans. cbn [Z.eqb Pos.eqb snd fst].
  shm_fields.
  destruct (Z.eqb_spec (Shared_Memory.file_mapping self) (-1)); [contradiction|].
  destruct (Z.eqb_spec (Shared_Memory.address self) nullptr); [contradiction|].
  cbn [negb]. rewrite (empty_false _ Hname). cbn [negb].
  flatten_trace. eexists _, _, _. reflexivity.
Qed.

Lemma refused_recreate_then_close_witness :
  exists r1 r2 r3,
    Shared_Memory.run linux Scenario.os_refuse (Shared_Memory.mk "/m" 16 8192 3)
      [Shared_Memory.Create "/other" 4; Shared_Memory.Close] [] =
    (Shared_Memory.default linux,
     [OS.Ev (OS.shm_open "/other" 66 438) (-1); OS.Ev (OS.munmap 8192 4) r1;
      OS.Ev (OS.close 3) r2; OS.Ev (OS.shm_unlink "/other") r3]).
Proof.
  apply (refused_recreate_then_close linux Scenario.os_refuse
           (Shared_Memory.mk "/m" 16 8192 3) "/other" 4%N []);
    try discriminate; reflexivity.
Defined.

(** ** The nanoseconds of the deadline *)

Lemma wrap_signed_range w x :
  1 <= w -> - 2 ^ (w - 1) <= wrap_signed w x < 2 ^ (w - 1).
Proof.
  intros Hw. unfold wrap_signed.
  assert (Hpow : 2 ^ w = 2 * 2 ^ (w - 1)).
  { replace w with (Z.succ (w - 1)) at 1 by lia. apply Z.pow_succ_r. lia. }
  assert (0 < 2 ^ (w - 1)) by (apply Z.pow_pos_nonneg; lia).
  pose proof (Z.mod_pos_bound (x + 2 ^ (w - 1)) (2 ^ w) ltac:(lia)). lia.
Qed.

Lemma wrap_signed_add w x y :
  wrap_signed w (wrap_signed w x + y) = wrap_signed w (x + y).
Proof.
  unfold wrap_signed. f_equal.
  replace ((x + 2 ^ (w - 1)) mod 2 ^ w - 2 ^ (w - 1) + y + 2 ^ (w - 1))
    with ((x + 2 ^ (w - 1)) mod 2 ^ w + y) by lia.
  rewrite Zplus_mod_idemp_l. f_equal. lia.
Qed.

(** X13.  For every clock reading with [tv_nsec] in [0, 10^9) and every
    [timeout_ms], whatever [tv_sec] is, the [tv_nsec] of the deadline
    [wait] computes is the exact one and lies in [0, 10^9): one carry
    is enough and the nanoseconds never wrap.  The [tv_sec] of the
    deadline is the exact number of seconds brought into the range of
    [time_t]. *)
Theorem wait_deadline_nanoseconds :
  forall (P : Platform) now timeout_ms,
    32 <= long_bits P -> 1 <= time_t_bits P ->
    0 <= timeout_ms < 2 ^ 32 ->
    0 <= tv_nsec now < 10 ^ 9 ->
    let d := Semaphore.wait_deadline P now timeout_ms in
    let e := exact_deadline now timeout_ms in
    tv_nsec d = tv_nsec e /\
    0 <= tv_nsec d < 10 ^ 9 /\
    tv_sec d = wrap_signed (time_t_bits P) (tv_sec e) /\
    - 2 ^ (time_t_bits P - 1) <= tv_sec d < 2 ^ (time_t_bits P - 1).
Proof.
  intros P now timeout_ms Hl Ht Hms Hns d e.
  change (2 ^ 32) with 4294967296 in Hms. change (10 ^ 9) with 1000000000 in *.
  pose proof (pow2_31_le _ Hl) as Hpl. change (2 ^ 31) with 2147483648 in Hpl.
  assert (Hq : 0 <= timeout_ms / 1000 < 4294968).
  { split; [apply Z.div_pos; lia | apply Z.div_lt_upper_bound; lia]. }
  pose proof (Z.mod_pos_bound timeout_ms 1000 ltac:(lia)) as Hr.
  unfold d, e, Semaphore.wait_deadline, exact_deadline. cbv zeta.
  rewrite (wrap_unsigned_small 32 (timeout_ms / 1000))
    by (change (2 ^ 32) with 4294967296; lia).
  rewrite (wrap_unsigned_small 32 (timeout_ms mod 1000))
    by (change (2 ^ 32) with 4294967296; lia).
  rewrite (wrap_unsigned_small 32 (timeout_ms mod 1000 * 1000000))
    by (change (2 ^ 32) with 4294967296; lia).
  rewrite (wrap_signed_small (long_bits P)
             (tv_nsec now + timeout_ms mod 1000 * 1000000)) by lia.
  destruct (Z.geb_spec (tv_nsec now + timeout_ms mod 1000 * 1000000) 1000000000);
    cbn [tv_sec tv_nsec].
  - rewrite (wrap_signed_small (long_bits P)) by lia.
    rewrite wrap_signed_add.
    split; [reflexivity|]. split; [lia|]. split; [reflexivity|].
    apply wrap_signed_range, Ht.
  - split; [reflexivity|]. split; [lia|]. split; [reflexivity|].
    apply wrap_signed_range, Ht.
Qed.

Lemma wait_deadline_nanoseconds_witness :
  tv_nsec (Semaphore.wait_deadline linux32 (mk_timespec 2147483647 999999999)
             4294967295) = 294999999.
Proof.
  rewrite (proj1 (wait_deadline_nanoseconds linux32
                    (mk_timespec 2147483647 999999999) 4294967295
                    ltac:(cbn; lia) ltac:(cbn; lia)
                    ltac:(split; [lia | reflexivity])
                    ltac:(cbn; split; [lia | reflexivity]))).
  reflexivity.
Defined.

(** ** Reachable states of [Shared_Memory] *)

Lemma shm_create_named P os self name size tr :
  (Shared_Memory.file_mapping self <> Shared_Memory.invalid P ->
   Shared_Memory.name self <> "" /\ Shared_Memory.size self <> 0%N) ->
  let self' := snd (fst (Shared_Memory.create P os self name size tr)) in
  Shared_Memory.file_mapping self' <> Shared_Memory.invalid P ->
  Shared_Memory.name self' <> "" /\ Shared_Memory.size self' <> 0%N.
Proof.
  intros Hinv. cbv zeta.
  unfold Shared_Memory.create, Shared_Memory.create_map, Shared_Memory.map.
  destruct (empty name) eqn:Hname; [exact Hinv|].
  destruct (N.eqb_spec size 0); [exact Hinv|].
  apply empty_false_inv in Hname.
  destruct (backend P); unfold_os;
    cbn [Shared_Memory.file_mapping Shared_Memory.size
         Shared_Memory.with_file_mapping];
    repeat split_if; shm_fields; intros _; split; assumption.
Qed.

Lemma shm_step_consistent P os self o tr :
  shm_consistent P self ->
  shm_consistent P (fst (Shared_Memory.step P os self o tr)).
Proof.
  intros [Hmapped Hnamed]. destruct o as [name size|]; cbn [Shared_Memory.step].
  - unfold OS.bind.
    pose proof (shared_memory_create_keeps P os self name size tr) as Hk.
    pose proof (shm_create_named P os self name size tr Hnamed) as Hn.
    destruct (Shared_Memory.create P os self name size tr) as [[ok s] t].
    cbn [fst snd OS.ret] in *. split; [|exact Hn].
    intros Ha Hf. apply Ha. apply Hk; [|exact Hf].
    intros Hf0. destruct (Z.eq_dec (Shared_Memory.address self) nullptr); [assumption|].
    exfalso. now apply Hmapped.
  - destruct (Z.eq_dec (Shared_Memory.file_mapping self) (Shared_Memory.invalid P))
      as [Hfm|Hfm].
    + rewrite shared_memory_close_invalid by exact Hfm. split; assumption.
    + destruct (shared_memory_close_valid P os self tr Hfm) as [evs ->].
      split; intros H; now contradiction H.
Qed.

(** X14.  In every state a default-constructed [Shared_Memory] reaches
    by any sequence of [create] and [close] calls, whatever the
    operating system answers: a non-null address comes with a valid
    handle, and a valid handle comes with a non-empty name and a
    non-zero size. *)
Theorem shared_memory_reachable_consistent :
  forall (P : Platform) (os : OS.oracle) (ops : list Shared_Memory.op) tr,
    let self := fst (Shared_Memory.run P os (Shared_Memory.default P) ops tr) in
    (Shared_Memory.get_address self <> nullptr ->
     Shared_Memory.get_file_mapping self <> Shared_Memory.invalid P) /\
    (Shared_Memory.get_file_mapping self <> Shared_Memory.invalid P ->
     Shared_Memory.get_name self <> "" /\ Shared_Memory.get_size self <> 0%N).
Proof.
  intros P os ops tr.
  assert (G : forall ops self tr, shm_consistent P self ->
            shm_consistent P (fst (Shared_Memory.run P os self ops tr))).
  { clear ops tr. induction ops as [|o ops IH]; intros self tr Hinv; [exact Hinv|].
    cbn [Shared_Memory.run]. unfold OS.bind at 1.
    pose proof (shm_step_consistent P os self o tr Hinv) as Hstep.
    destruct (Shared_Memory.step P os self o tr) as [self1 tr1].
    apply IH. exact Hstep. }
  apply G. split; intros H; now contradiction H.
Qed.

Lemma shared_memory_reachable_consistent_witness :
  let self := fst (Shared_Memory.run linux Scenario.os_ok
                     (Shared_Memory.default linux)
                     [Shared_Memory.Create "/m" 16; Shared_Memory.Create "" 4] []) in
  Shared_Memory.get_name self <> "" /\ Shared_Memory.get_size self <> 0%N.
Proof.
  cbv zeta.
  apply (proj2 (shared_memory_reachable_consistent linux Scenario.os_ok
                  [Shared_Memory.Create "/m" 16; Shared_Memory.Create "" 4] [])).
  apply (proj1 (shared_memory_reachable_consistent linux Scenario.os_ok
                  [Shared_Memory.Create "/m" 16; Shared_Memory.Create "" 4] [])).
  discriminate.
Defined.

(** ** What a [true] result stands for *)

(** X15.  When [wait] returns [true], on either backend, the handle is
    set and the last call made is a wait on that handle ([sem_wait],
    [sem_timedwait] or [WaitForSingleObject]) that the operating system
    reported as acquired. *)
Theorem wait_acquired_is_granted :
  forall (P : Platform) (os : OS.oracle) self timeout_ms tr tr',
    Semaphore.wait P os self timeout_ms tr = (true, tr') ->
    Semaphore.get_object self <> nullptr /\
    exists pre e,
      tr' = tr ++ pre ++ [e] /\ granted P (Semaphore.object self) e.
Proof.
  intros P os self timeout_ms tr tr' Hwait.
  unfold Semaphore.wait, granted, Semaphore.get_object in *.
  destruct (Z.eqb_spec (Semaphore.object self) nullptr) as [|Hobj];
    [discriminate|].
  split; [exact Hobj|].
  destruct (backend P); [|destruct (timeout_ms =? INFINITE)];
    unfold_os; split_pair; subst; eqb_facts; flatten_trace.
  - match goal with H : _ = WAIT_OBJECT_0 P |- _ => rewrite H end.
    eexists [], _. split; [reflexivity|]. eexists. reflexivity.
  - match goal with H : _ = 0 |- _ => rewrite H end.
    eexists [], _. split; [reflexivity|]. left. reflexivity.
  - match goal with H : _ = 0 |- _ => rewrite H end.
    eexists [_], _. split; [reflexivity|]. right. eexists. reflexivity.
Qed.

Lemma wait_acquired_is_granted_witness :
  exists pre e,
    [OS.Ev (OS.sem_wait 4096) 0] = [] ++ pre ++ [e] /\ granted linux 4096 e.
Proof.
  exact (proj2 (wait_acquired_is_granted linux Scenario.os_ok
                  (Semaphore.mk "/s" 4096) INFINITE []
                  [OS.Ev (OS.sem_wait 4096) 0] eq_refl)).
Defined.

Lemma posted_released P h count rets :
  backend P = Posix ->
  forallb (Z.eqb 0) rets = true ->
  Forall (released P h count) (posted h rets).
Proof.
  intros HP. unfold released. rewrite HP.
  induction rets as [|r rets IH]; intros Hall; [constructor|].
  cbn [forallb] in Hall. apply andb_true_iff in Hall as [Hr Hall].
  apply Z.eqb_eq in Hr. subst r. constructor; [reflexivity | apply IH, Hall].
Qed.

(** X16.  When [increment] returns [true], on either backend, the
    handle is set and every call it made is a release on that handle
    that the operating system reported as done; on the descriptor-style
    backend there are [max(0, count)] of them, on the handle-style
    backend exactly one, for [count] units. *)
Theorem increment_success_is_released :
  forall (P : Platform) (os : OS.oracle) self count tr tr',
    Semaphore.increment P os self count tr = (true, tr') ->
    Semaphore.get_object self <> nullptr /\
    exists evs,
      tr' = tr ++ evs /\
      Forall (released P (Semaphore.object self) count) evs /\
      Z.of_nat (List.length evs) =
        match backend P with Win32 => 1 | Posix => Z.max 0 count end.
Proof.
  intros P os self count tr tr' Hinc. unfold Semaphore.get_object.
  assert (Hobj : Semaphore.object self <> nullptr).
  { intros Hnull. rewrite sem_increment_null in Hinc by exact Hnull.
    discriminate. }
  split; [exact Hobj|].
  destruct (backend P) eqn:HP.
  - unfold Semaphore.increment in Hinc.
    destruct (Z.eqb_spec (Semaphore.object self) nullptr); [contradiction|].
    rewrite HP in Hinc. unfold_os. split_pair. subst. eqb_facts.
    eexists. split; [reflexivity|]. split; [|reflexivity].
    constructor; [|constructor]. unfold released. rewrite HP.
    eexists. split; [|reflexivity]. assumption.
  - destruct (Z.le_gt_cases count 0) as [Hc|Hc].
    + rewrite (increment_nonpositive P os self count tr HP Hobj Hc) in Hinc.
      split_pair. subst. exists []. rewrite app_nil_r.
      split; [reflexivity|]. split; [constructor|]. cbn. lia.
    + rewrite (increment_posix P os self count tr HP Hobj) in Hinc by lia.
      split_pair. subst. eexists. split; [reflexivity|].
      split; [apply posted_released; assumption|].
      unfold posted. rewrite length_map, post_results_length. lia.
Qed.

Lemma increment_success_is_released_witness :
  exists evs,
    posted 4096 [0; 0; 0] = [] ++ evs /\
    Forall (released linux 4096 3) evs /\
    Z.of_nat (List.length evs) = Z.max 0 3.
Proof.
  exact (proj2 (increment_success_is_released linux Scenario.os_ok
                  (Semaphore.mk "/s" 4096) 3 [] (posted 4096 [0; 0; 0]) eq_refl)).
Defined.
